(** * A connection pool over a buffered Go channel (package [pool])

    Shallow embedding of [pool.go]: the [Pool] struct, its constructor [New]
    and its methods [Get], [Put], [Close], [MaximumCapacity] and
    [UsedCapacity], together with the interface file of the package (the two
    error variables and the [Pool] interface).

    Modelling choices.
    - A [net.Conn] interface value is [Conn]: [None] is Go's [nil], [Some id]
      a live connection with identity [id].
    - An [error] value is modelled by its message (what [Error()] returns);
      a nil error is [None] of [option error].
    - A buffered channel is a record: FIFO buffer, capacity and closed flag.
      The operations follow the Go runtime: a send on a closed channel
      panics, a receive on a closed and drained channel yields the zero
      value, a nil channel is never ready.
    - The outside world is the number of factory invocations made so far and
      the log of [Close()] calls on connections.  The [k]-th invocation of a
      factory [f] (counted over the world) answers [f k].
    - A call is run to completion on a state made of the pool object and the
      world; it returns, panics, or blocks for ever.  Calls of different
      goroutines are not interleaved: every statement below is about calls
      that happen one after the other.  The mutex is a boolean, so that a
      lock left held would show up as a blocked call.
    - An [int] is a [Z]; the code compares and counts but never computes
      with the capacities, so no wrap-around arises.  [make] panics for a
      size beyond [chan_limit], the largest buffer the runtime allocates;
      that limit belongs to the runtime and is a parameter here. *)

From Stdlib Require Import ZArith List String Ascii Bool Lia.
Import ListNotations.

Local Open Scope string_scope.
Local Open Scope list_scope.

(** ** Values *)

Definition ConnId := nat.

(** [net.Conn]: [None] is the nil interface value. *)
Definition Conn := option ConnId.

(** [error], by message. *)
Inductive error : Type :=
| errorString (s : string).

Definition Error (e : error) : string :=
  match e with errorString s => s end.

(** [errors.New(text)] *)
Definition errors_New (text : string) : error := errorString text.

(** [fmt.Errorf(prefix + "%s", err)] *)
Definition fmt_Errorf (prefix : string) (err : error) : error :=
  errorString (prefix ++ Error err)%string.

(** [ErrPoolClosed] and [ErrPoolFull] of the interface file. *)
Definition ErrPoolClosed : error := errors_New "pool is closed".
Definition ErrPoolFull : error := errors_New "pool is full".

(** [type Factory func() (net.Conn, error)]: the answer to the invocation
    number [k]. *)
Definition Factory := nat -> Conn * option error.

(** ** State *)

Record World : Type := mkWorld {
  dials : nat;            (* factory invocations made so far *)
  closes : list ConnId    (* connections on which Close() was called, in order *)
}.

Record Chan : Type := mkChan {
  buf : list Conn;
  chcap : Z;
  closed : bool
}.

Record Pool : Type := mkPool {
  conns : option Chan;        (* nil once the pool is closed *)
  factory : option Factory;   (* nil func once the pool is closed *)
  mu : bool                   (* true while the mutex is held *)
}.

Record State : Type := mkState {
  pool : Pool;
  world : World
}.

(** ** Outcomes and the monad of calls *)

Inductive Outcome (S A : Type) : Type :=
| Ret (a : A) (s : S)
| Panic (msg : string) (s : S)
| Block (s : S).

Arguments Ret {S A} a s.
Arguments Panic {S A} msg s.
Arguments Block {S A} s.

Definition M (A : Type) : Type := State -> Outcome State A.

Definition ret {A} (a : A) : M A := fun s => Ret a s.

Definition bind {A B} (m : M A) (k : A -> M B) : M B :=
  fun s =>
    match m s with
    | Ret a s' => k a s'
    | Panic msg s' => Panic msg s'
    | Block s' => Block s'
    end.

Declare Scope go_scope.
Delimit Scope go_scope with go.
Notation "x <- m ;; k" := (bind m (fun x => k))
  (at level 61, m at next level, right associativity) : go_scope.
Notation "m ;; k" := (bind m (fun _ => k))
  (at level 61, right associativity) : go_scope.
Local Open Scope go_scope.

Definition panic {A} (msg : string) : M A := fun s => Panic msg s.
Definition block {A} : M A := fun s => Block s.

(** [defer d] in front of [body]: [d] runs when [body] returns and also when
    it panics. *)
Definition defer {A} (d : M unit) (body : M A) : M A :=
  fun s =>
    match body s with
    | Ret a s' =>
        match d s' with
        | Ret _ s'' => Ret a s''
        | Panic msg s'' => Panic msg s''
        | Block s'' => Block s''
        end
    | Panic msg s' =>
        match d s' with
        | Ret _ s'' => Panic msg s''
        | Panic msg' s'' => Panic msg' s''
        | Block s'' => Block s''
        end
    | Block s' => Block s'
    end.

Definition nil_deref : string :=
  "invalid memory address or nil pointer dereference".

(** ** Fields of [p] *)

Definition get_conns : M (option Chan) := fun s => Ret (conns (pool s)) s.
Definition get_factory : M (option Factory) := fun s => Ret (factory (pool s)) s.

Definition set_conns (c : option Chan) : M unit :=
  fun s =>
    Ret tt (mkState (mkPool c (factory (pool s)) (mu (pool s))) (world s)).

Definition set_factory (f : option Factory) : M unit :=
  fun s =>
    Ret tt (mkState (mkPool (conns (pool s)) f (mu (pool s))) (world s)).

(** [p.mu.Lock()] and [p.mu.Unlock()] *)
Definition Lock : M unit :=
  fun s =>
    if mu (pool s) then Block s
    else Ret tt (mkState (mkPool (conns (pool s)) (factory (pool s)) true)
                         (world s)).

Definition Unlock : M unit :=
  fun s =>
    if mu (pool s)
    then Ret tt (mkState (mkPool (conns (pool s)) (factory (pool s)) false)
                         (world s))
    else Panic "sync: unlock of unlocked mutex" s.

(** ** The outside world *)

(** Calling a func value of type [Factory]. *)
Definition call_factory (f : option Factory) : M (Conn * option error) :=
  match f with
  | None => panic nil_deref
  | Some g =>
      fun s =>
        Ret (g (dials (world s)))
            (mkState (pool s)
                     (mkWorld (S (dials (world s))) (closes (world s))))
  end.

(** [_ = conn.Close()] *)
Definition conn_Close (conn : Conn) : M unit :=
  match conn with
  | None => panic nil_deref
  | Some id =>
      fun s =>
        Ret tt (mkState (pool s)
                        (mkWorld (dials (world s)) (closes (world s) ++ [id])))
  end.

Section Runtime.

(** The largest size for which [make(chan net.Conn, size)] succeeds.  It
    belongs to the Go runtime and the platform, not to the package. *)
Variable chan_limit : Z.

(** ** Channels *)

(** [len(c)] and [cap(c)]; both are 0 on a nil channel. *)
Definition chan_len (c : option Chan) : Z :=
  match c with
  | None => 0%Z
  | Some ch => Z.of_nat (List.length (buf ch))
  end.

Definition chan_cap (c : option Chan) : Z :=
  match c with
  | None => 0%Z
  | Some ch => chcap ch
  end.

(** [make(chan net.Conn, size)]: [None] when the runtime panics with
    "makechan: size out of range", for a negative size and for a size beyond
    the limit. *)
Definition make_chan (size : Z) : option Chan :=
  if ((size <? 0) || (chan_limit <? size))%Z then None
  else Some (mkChan [] size false).

Inductive SendResult : Type :=
| Sent (ch' : Chan)
| SendWouldBlock
| SendOnClosed.

(** One attempt at [ch <- v]. *)
Definition chansend (ch : Chan) (v : Conn) : SendResult :=
  if closed ch then SendOnClosed
  else if (Z.of_nat (List.length (buf ch)) <? chcap ch)%Z
       then Sent (mkChan (buf ch ++ [v]) (chcap ch) (closed ch))
       else SendWouldBlock.

(** One attempt at [<-ch]: the value and the channel left, or [None] when the
    receive is not ready. *)
Definition chanrecv (ch : Chan) : option (Conn * Chan) :=
  match buf ch with
  | v :: rest => Some (v, mkChan rest (chcap ch) (closed ch))
  | [] => if closed ch then Some (None, ch) else None
  end.

(** [p.conns <- conn], the blocking send of [New]. *)
Definition send_conns (conn : Conn) : M unit :=
  c <- get_conns ;;
  match c with
  | None => block
  | Some ch =>
      match chansend ch conn with
      | Sent ch' => set_conns (Some ch')
      | SendWouldBlock => block
      | SendOnClosed => panic "send on closed channel"
      end
  end.

(** [select { case p.conns <- conn: (true) default: (false) }] *)
Definition select_send_conns (conn : Conn) : M bool :=
  c <- get_conns ;;
  match c with
  | None => ret false
  | Some ch =>
      match chansend ch conn with
      | Sent ch' => set_conns (Some ch') ;; ret true
      | SendWouldBlock => ret false
      | SendOnClosed => panic "send on closed channel"
      end
  end.

(** [select { case conn := <-p.conns: (Some conn) default: (None) }] *)
Definition select_recv_conns : M (option Conn) :=
  c <- get_conns ;;
  match c with
  | None => ret None
  | Some ch =>
      match chanrecv ch with
      | Some (v, ch') => set_conns (Some ch') ;; ret (Some v)
      | None => ret None
      end
  end.

(** [close(conns)] on a channel held in a local variable. *)
Definition chanclose (c : option Chan) : M Chan :=
  match c with
  | None => panic "close of nil channel"
  | Some ch =>
      if closed ch then panic "close of closed channel"
      else ret (mkChan (buf ch) (chcap ch) true)
  end.

(** [for conn := range conns { _ = conn.Close() }] on a channel held in a
    local variable: the buffered items are received in order; the loop ends
    when the channel is closed and drained, and waits for ever on an open
    drained channel. *)
Fixpoint range_Close (items : list Conn) (is_closed : bool) : M unit :=
  match items with
  | [] => if is_closed then ret tt else block
  | conn :: rest => conn_Close conn ;; range_Close rest is_closed
  end.

(** ** The pool ([pool.go]) *)

(** [func (p *Pool) closePool() chan net.Conn] *)
Definition closePool : M (option Chan) :=
  Lock ;;
  defer Unlock
    (c <- get_conns ;;
     set_conns None ;;
     set_factory None ;;
     ret c).

(** [func (p *Pool) Close()] *)
Definition Close : M unit :=
  c <- closePool ;;
  match c with
  | None => ret tt
  | Some _ =>
      ch <- chanclose c ;;
      range_Close (buf ch) (closed ch)
  end.

(** The loop [for i := 0; i < initalCap; i++] of [New], with [n] iterations
    left to run.  The result is the error of the early [return], or [None]
    when the loop ran to its end. *)
Fixpoint New_fill (factory : option Factory) (n : nat) : M (option error) :=
  match n with
  | O => ret None
  | S n' =>
      r <- call_factory factory ;;
      match snd r with
      | Some err =>
          Close ;;
          ret (Some (fmt_Errorf "factory is not able to fill the pool: " err))
      | None =>
          send_conns (fst r) ;;
          New_fill factory n'
      end
  end.

(** [func New(initalCap, maxCap int, factory Factory)], of result type
    [*Pool, error].
    The [*Pool] result is [None] for a nil pointer. *)
Definition New (initalCap maxCap : Z) (factory : option Factory) (w : World)
  : Outcome World (option Pool * option error) :=
  if ((initalCap <=? 0) || (maxCap <=? 0) || (initalCap >? maxCap))%Z
  then Ret (None, Some (errors_New "invalid capacity settings")) w
  else
    match make_chan maxCap with
    | None => Panic "makechan: size out of range" w
    | Some ch =>
        match New_fill factory (Z.to_nat initalCap)
                (mkState (mkPool (Some ch) factory false) w) with
        | Ret None s => Ret (Some (pool s), None) (world s)
        | Ret (Some err) s => Ret (None, Some err) (world s)
        | Panic msg s => Panic msg (world s)
        | Block s => Block (world s)
        end
    end.

(** [func (p *Pool) getConns() chan net.Conn] *)
Definition getConns : M (option Chan) :=
  Lock ;;
  c <- get_conns ;;
  Unlock ;;
  ret c.

(** [func (p *Pool) Get() (net.Conn, error)] *)
Definition Get : M (Conn * option error) :=
  c <- getConns ;;
  match c with
  | None => ret (None, Some (errors_New "pool is closed"))
  | Some _ =>
      r <- select_recv_conns ;;
      match r with
      | Some conn =>
          match conn with
          | None => ret (None, Some (errors_New "pool is closed"))
          | Some _ => ret (conn, None)
          end
      | None =>
          f <- get_factory ;;
          call_factory f
      end
  end.

(** [func (p *Pool) put(conn net.Conn) bool] *)
Definition put (conn : Conn) : M bool :=
  Lock ;;
  defer Unlock
    (c <- get_conns ;;
     match c with
     | None => ret false
     | Some _ => select_send_conns conn
     end).

(** [func (p *Pool) Put(conn net.Conn)]: there is no result. *)
Definition Put (conn : Conn) : M unit :=
  match conn with
  | None => ret tt
  | Some _ =>
      ok <- put conn ;;
      if negb ok then conn_Close conn else ret tt
  end.

(** [func (p *Pool) MaximumCapacity() int] *)
Definition MaximumCapacity : M Z :=
  c <- get_conns ;; ret (chan_cap c).

(** [func (p *Pool) UsedCapacity() int] *)
Definition UsedCapacity : M Z :=
  c <- get_conns ;; ret (chan_len c).

(** ** The interface file

    The [Pool] interface of the package, as method signatures over a state.
    Its [Put] has an [error] result, and its observers are named [Cap] and
    [Len]; in [pool.go] they are [MaximumCapacity] and [UsedCapacity]. *)
Record PoolInterface : Type := {
  I_Get : M (Conn * option error);
  I_Put : Conn -> M (option error);
  I_Close : M unit;
  I_Cap : M Z;
  I_Len : M Z
}.

(** ** Sequences of calls *)

Inductive Call : Type :=
| CallGet
| CallPut (conn : Conn)
| CallClose
| CallMaximumCapacity
| CallUsedCapacity.

(** The state a call leaves behind, whatever its outcome. *)
Definition after {A} (o : Outcome State A) : State :=
  match o with
  | Ret _ s => s
  | Panic _ s => s
  | Block s => s
  end.

Definition exec (c : Call) (s : State) : State :=
  match c with
  | CallGet => after (Get s)
  | CallPut conn => after (Put conn s)
  | CallClose => after (Close s)
  | CallMaximumCapacity => after (MaximumCapacity s)
  | CallUsedCapacity => after (UsedCapacity s)
  end.

Definition run (cs : list Call) (s : State) : State :=
  fold_left (fun s' c => exec c s') cs s.

(** [n] calls of [Get] in a row, with their results in order. *)
Fixpoint Gets (n : nat) : M (list (Conn * option error)) :=
  match n with
  | O => ret []
  | S n' =>
      r <- Get ;;
      rs <- Gets n' ;;
      ret (r :: rs)
  end.

(** One [Put] for each connection of a list, in order. *)
Definition Puts (ids : list ConnId) : list Call :=
  map (fun id => CallPut (Some id)) ids.

(** ** Predicates used in the statements *)

(** [outer] carries the message of [inner] behind a non-empty context. *)
Definition wraps (outer inner : error) : Prop :=
  exists context : string,
    context <> EmptyString /\ Error outer = (context ++ Error inner)%string.

(** The idle queue holds at most [C] connections, and its capacity is [C]. *)
Definition bounded (C : Z) (s : State) : Prop :=
  match conns (pool s) with
  | None => True
  | Some ch => chcap ch = C /\ (Z.of_nat (List.length (buf ch)) <= C)%Z
  end.

(** The states reached by calls made one after the other: the mutex is free
    and the channel of an open pool is not closed. *)
Definition quiescent (s : State) : Prop :=
  mu (pool s) = false /\
  match conns (pool s) with
  | None => True
  | Some ch => closed ch = false
  end.

(** An open pool still holds the factory [f] it was built with. *)
Definition serves (f : option Factory) (s : State) : Prop :=
  conns (pool s) <> None -> factory (pool s) = f.

(** A pool without a channel has no factory either. *)
Definition severed (s : State) : Prop :=
  conns (pool s) = None -> factory (pool s) = None.

(** The pool has been shut down. *)
Definition shut (s : State) : Prop :=
  conns (pool s) = None /\ factory (pool s) = None /\ mu (pool s) = false.

(** The capacity settings rejected by [New]. *)
Definition invalid (initalCap maxCap : Z) : Prop :=
  (initalCap <= 0 \/ maxCap <= 0 \/ initalCap > maxCap)%Z.

(** The answers of [g] to the invocations [d], [d+1], ..., [d+n-1]. *)
Definition minted (g : Factory) (d n : nat) : list Conn :=
  map (fun k => fst (g k)) (seq d n).

(** ** Fixtures of the test files

    [InitialCap], [MaximumCap] and a [factory] that dials a local server and
    always gets a fresh connection; [refusing] is a factory whose server
    accepts one connection and refuses the next ones. *)
Definition InitialCap : Z := 5.
Definition MaximumCap : Z := 30.

Definition dial : Factory := fun k => (Some k, None).

Definition refusing : Factory :=
  fun k =>
    match k with
    | O => (Some 0, None)
    | S _ => (None, Some (errors_New "connection refused"))
    end.

(** A factory that answers a nil connection with a nil error, then fails. *)
Definition nil_then_refusing : Factory :=
  fun k =>
    match k with
    | O => (None, None)
    | S _ => (None, Some (errors_New "connection refused"))
    end.

Definition fresh_world : World := mkWorld 0 [].

(** The largest [int] of a 64-bit platform, and the limit of [make] for a
    channel of interface values on linux/amd64: the buffer, 16 bytes a
    value, has to fit the 2^48 bytes the runtime can allocate less the 96
    bytes of the channel header. *)
Definition MaxInt64 : Z := 9223372036854775807.
Definition limit_amd64 : Z := 17592186044410.

(** The pool [New(1, 1, g)] builds in a fresh world when the first answer of
    [g] is the connection 0; the same pool after one [Get]; and after
    [Close]. *)
Definition one_idle (g : Factory) : State :=
  mkState (mkPool (Some (mkChan [Some 0] 1 false)) (Some g) false)
          (mkWorld 1 []).

Definition drained (g : Factory) : State :=
  mkState (mkPool (Some (mkChan [] 1 false)) (Some g) false) (mkWorld 1 []).

Definition closed_one : State :=
  mkState (mkPool None None false) (mkWorld 1 [0]).

(** * Proofs *)

Ltac simpl_go :=
  cbn [pool world conns factory mu buf chcap closed dials closes after
       fst snd negb] in *.

Ltac unfold_go :=
  unfold Close, closePool, Get, getConns, Put, put, MaximumCapacity,
    UsedCapacity, select_recv_conns, select_send_conns, send_conns,
    chanclose, call_factory, conn_Close, defer, Lock, Unlock, get_conns,
    get_factory, set_conns, set_factory, bind, ret, panic, block, chansend,
    chanrecv in *;
  simpl_go.

Ltac open_state s :=
  let c := fresh "c" in
  let f := fresh "f" in
  let m := fresh "m" in
  let w := fresh "w" in
  destruct s as [[c f m] w]; cbn [pool world conns factory mu] in *.

(** ** The drain loop of [Close] *)

Lemma range_Close_pool (items : list Conn) (b : bool) :
  forall s, pool (after (range_Close items b s)) = pool s.
Proof.
  induction items as [|conn rest IH]; intros s; cbn [range_Close].
  - destruct b; reflexivity.
  - destruct conn as [id|]; unfold_go; [|reflexivity].
    rewrite IH. reflexivity.
Qed.

Lemma range_Close_live (ids : list ConnId) :
  forall s,
    range_Close (map Some ids) true s =
    Ret tt (mkState (pool s)
                    (mkWorld (dials (world s)) (closes (world s) ++ ids))).
Proof.
  induction ids as [|id rest IH]; intros [p [d cl]]; cbn [map range_Close].
  - unfold_go. rewrite app_nil_r. reflexivity.
  - unfold_go. rewrite IH. cbn [pool world dials closes].
    rewrite <- app_assoc. reflexivity.
Qed.

(** ** [Close] *)

Lemma Close_shut (s : State) : shut s -> Close s = Ret tt s.
Proof.
  open_state s. intros (Hc & Hf & Hm). cbn in Hc, Hf, Hm. subst.
  reflexivity.
Qed.

Lemma Close_after_shut (s : State) :
  mu (pool s) = false -> shut (after (Close s)).
Proof.
  open_state s. intros Hm. subst m.
  destruct c as [[b cp cl]|]; unfold_go.
  - destruct cl; unfold_go.
    + repeat split.
    + pose proof (range_Close_pool b true
                    (mkState (mkPool None None false) w)) as Hp.
      unfold shut. rewrite Hp. repeat split.
  - repeat split.
Qed.

Lemma Close_ret_shut (s s' : State) : Close s = Ret tt s' -> shut s'.
Proof.
  intros H.
  destruct (mu (pool s)) eqn:Hm.
  - open_state s. subst m. unfold_go. discriminate.
  - pose proof (Close_after_shut s Hm) as Hs. rewrite H in Hs. exact Hs.
Qed.

(** ** [Get] *)

Lemma Get_closed (s : State) :
  conns (pool s) = None -> mu (pool s) = false ->
  Get s = Ret (None, Some (errors_New "pool is closed")) s.
Proof.
  open_state s. intros Hc Hm. subst. reflexivity.
Qed.

Lemma Get_mint (s : State) (ch : Chan) (g : Factory) :
  conns (pool s) = Some ch -> buf ch = [] -> closed ch = false ->
  factory (pool s) = Some g -> mu (pool s) = false ->
  Get s = Ret (g (dials (world s)))
              (mkState (pool s)
                       (mkWorld (S (dials (world s))) (closes (world s)))).
Proof.
  open_state s. destruct ch as [b cp cl]. cbn [buf closed].
  intros Hc Hb Hcl Hf Hm. subst. reflexivity.
Qed.

Lemma Get_idle (s : State) (ch : Chan) (id : ConnId) (rest : list Conn) :
  conns (pool s) = Some ch -> buf ch = Some id :: rest ->
  mu (pool s) = false ->
  Get s = Ret (Some id, None)
              (mkState (mkPool (Some (mkChan rest (chcap ch) (closed ch)))
                               (factory (pool s)) false)
                       (world s)).
Proof.
  open_state s. destruct ch as [b cp cl]. cbn [buf closed chcap].
  intros Hc Hb Hm. subst. reflexivity.
Qed.

(** ** [Put] *)

Lemma Put_nil (s : State) : Put None s = Ret tt s.
Proof. reflexivity. Qed.

Lemma Put_discard (s : State) (id : ConnId) :
  quiescent s ->
  (chan_cap (conns (pool s)) <= chan_len (conns (pool s)))%Z ->
  Put (Some id) s =
  Ret tt (mkState (pool s)
                  (mkWorld (dials (world s)) (closes (world s) ++ [id]))).
Proof.
  open_state s. intros [Hm Hq] Hfull. cbn in Hm. subst m.
  destruct c as [[b cp cl]|]; cbn in Hq, Hfull; [|reflexivity].
  subst cl. unfold_go.
  destruct (Z.ltb_spec (Z.of_nat (List.length b)) cp) as [Hlt|Hge]; [lia|].
  reflexivity.
Qed.

Lemma Put_keep (s : State) (ch : Chan) (id : ConnId) :
  quiescent s -> conns (pool s) = Some ch ->
  (chan_len (conns (pool s)) < chan_cap (conns (pool s)))%Z ->
  Put (Some id) s =
  Ret tt (mkState (mkPool (Some (mkChan (buf ch ++ [Some id]) (chcap ch) false))
                          (factory (pool s)) false)
                  (world s)).
Proof.
  open_state s. intros [Hm Hq] Hc Hroom. cbn in Hm. subst m c.
  destruct ch as [b cp cl]. cbn in Hq, Hroom. subst cl. unfold_go.
  destruct (Z.ltb_spec (Z.of_nat (List.length b)) cp) as [Hlt|Hge]; [|lia].
  reflexivity.
Qed.

(** ** Invariants of every call *)

Lemma exec_bounded (C : Z) (c : Call) (s : State) :
  bounded C s -> bounded C (exec c s).
Proof.
  unfold bounded. open_state s. intros Hb.
  destruct c as [|conn| | |]; cbn [exec].
  - (* Get *)
    destruct m; [exact Hb|].
    destruct c0 as [[b cp cl]|]; [|exact I].
    cbn [buf chcap] in Hb. destruct Hb as [Hcap Hlen].
    unfold_go. destruct b as [|v rest].
    + destruct cl; unfold_go.
      * split; [exact Hcap|exact Hlen].
      * destruct f as [g|]; unfold_go; split; assumption.
    + unfold_go. destruct v; unfold_go; split; try assumption;
        cbn [List.length] in Hlen; lia.
  - (* Put *)
    destruct conn as [id|]; [|exact Hb].
    destruct m; [exact Hb|].
    destruct c0 as [[b cp cl]|]; [|exact I].
    cbn [buf chcap] in Hb. destruct Hb as [Hcap Hlen].
    unfold_go. destruct cl; unfold_go; [split; assumption|].
    destruct (Z.ltb_spec (Z.of_nat (List.length b)) cp) as [Hlt|Hge];
      unfold_go; (split; [assumption|]); [|assumption].
    rewrite length_app. cbn [List.length]. lia.
  - (* Close *)
    destruct m; [exact Hb|].
    pose proof (Close_after_shut (mkState (mkPool c0 f false) w) eq_refl)
      as (Hc & _).
    rewrite Hc. exact I.
  - exact Hb.
  - exact Hb.
Qed.

Lemma exec_quiescent (c : Call) (s : State) :
  quiescent s -> quiescent (exec c s).
Proof.
  unfold quiescent. open_state s. intros [Hm Hq]. subst m.
  destruct c as [|conn| | |]; cbn [exec].
  - (* Get *)
    destruct c0 as [[b cp cl]|]; [|split; [reflexivity|exact I]].
    cbn [closed] in Hq. subst cl. unfold_go.
    destruct b as [|v rest]; unfold_go.
    + destruct f as [g|]; unfold_go; split; reflexivity.
    + destruct v; unfold_go; split; reflexivity.
  - (* Put *)
    destruct conn as [id|]; [|split; [reflexivity|exact Hq]].
    destruct c0 as [[b cp cl]|]; [|split; [reflexivity|exact I]].
    cbn [closed] in Hq. subst cl. unfold_go.
    destruct (Z.ltb_spec (Z.of_nat (List.length b)) cp) as [Hlt|Hge];
      unfold_go; split; reflexivity.
  - (* Close *)
    pose proof (Close_after_shut (mkState (mkPool c0 f false) w) eq_refl)
      as (Hc & _ & Hm).
    rewrite Hc, Hm. split; [reflexivity|exact I].
  - split; [reflexivity|exact Hq].
  - split; [reflexivity|exact Hq].
Qed.

Lemma exec_shut (c : Call) (s : State) : shut s -> shut (exec c s).
Proof.
  unfold shut. open_state s. intros (Hc & Hf & Hm). subst.
  destruct c as [|conn| | |]; cbn [exec]; try (repeat split; fail).
  destruct conn as [id|]; repeat split.
Qed.

Lemma run_invariant (P : State -> Prop) :
  (forall c s, P s -> P (exec c s)) ->
  forall cs s, P s -> P (run cs s).
Proof.
  intros Hstep cs. unfold run.
  induction cs as [|c cs IH]; intros s Hs; cbn [fold_left].
  - exact Hs.
  - apply IH, Hstep, Hs.
Qed.

(** ** The filling loop of [New] *)

Lemma minted_length (g : Factory) (d n : nat) :
  List.length (minted g d n) = n.
Proof. unfold minted. rewrite length_map, length_seq. reflexivity. Qed.

(** While the factory succeeds and the channel has room, the loop pushes
    each answer and returns no error. *)
Lemma New_fill_succeeds (g : Factory) (n : nat) :
  forall (b : list Conn) (cp : Z) (f : option Factory) (d : nat)
         (cl : list ConnId),
    (forall k, d <= k < d + n -> snd (g k) = None) ->
    (Z.of_nat (List.length b + n) <= cp)%Z ->
    New_fill (Some g) n
      (mkState (mkPool (Some (mkChan b cp false)) f false) (mkWorld d cl)) =
    Ret None
      (mkState (mkPool (Some (mkChan (b ++ minted g d n) cp false)) f false)
               (mkWorld (d + n) cl)).
Proof.
  induction n as [|n IH]; intros b cp f d cl Hok Hroom; cbn [New_fill].
  - unfold minted. cbn [seq map]. rewrite app_nil_r, Nat.add_0_r. reflexivity.
  - unfold_go. rewrite (Hok d) by lia. simpl_go.
    destruct (Z.ltb_spec (Z.of_nat (List.length b)) cp) as [Hlt|Hge]; [|lia].
    simpl_go. rewrite IH.
    + unfold minted. cbn [seq map]. rewrite <- app_assoc. cbn [app].
      replace (S d + n) with (d + S n) by lia. reflexivity.
    + intros k Hk. apply Hok. lia.
    + rewrite length_app. cbn [List.length]. lia.
Qed.

(** When the invocations [d .. d+|ids|-1] give the live connections [ids] and
    the next one fails with [err], the loop closes the pool, which closes
    the queued connections in order, and returns the wrapped error. *)
Lemma New_fill_fails (g : Factory) (err : error) (ids : list ConnId) :
  forall (n : nat) (pre : list ConnId) (cp : Z) (f : option Factory)
         (d : nat) (cl : list ConnId),
    List.length ids < n ->
    (forall i, i < List.length ids ->
               g (d + i) = (Some (nth i ids 0), None)) ->
    snd (g (d + List.length ids)) = Some err ->
    (Z.of_nat (List.length pre + List.length ids) <= cp)%Z ->
    New_fill (Some g) n
      (mkState (mkPool (Some (mkChan (map Some pre) cp false)) f false)
               (mkWorld d cl)) =
    Ret (Some (fmt_Errorf "factory is not able to fill the pool: " err))
      (mkState (mkPool None None false)
               (mkWorld (S (d + List.length ids)) (cl ++ pre ++ ids))).
Proof.
  induction ids as [|id ids IH]; intros n pre cp f d cl Hn Hids Herr Hroom;
    (destruct n as [|n]; [cbn [List.length] in Hn; lia|]);
    cbn [New_fill]; cbn [List.length] in *.
  - rewrite Nat.add_0_r in *. unfold_go. rewrite Herr. simpl_go.
    rewrite (range_Close_live pre). simpl_go.
    rewrite app_nil_r. reflexivity.
  - unfold_go. pose proof (Hids 0 ltac:(lia)) as H0.
    rewrite Nat.add_0_r in H0. cbn [nth] in H0. rewrite H0. simpl_go.
    rewrite length_map.
    destruct (Z.ltb_spec (Z.of_nat (List.length pre)) cp) as [Hlt|Hge]; [|lia].
    simpl_go.
    change (map Some pre ++ [Some id]) with (map Some pre ++ map Some [id]).
    rewrite <- map_app.
    rewrite (IH n (pre ++ [id]) cp f (S d) cl).
    + replace (S (S d + List.length ids)) with (S (d + S (List.length ids)))
        by lia.
      rewrite <- (app_assoc pre [id] ids). reflexivity.
    + lia.
    + intros i Hi. replace (S d + i) with (d + S i) by lia.
      rewrite (Hids (S i)) by lia. reflexivity.
    + replace (S d + List.length ids) with (d + S (List.length ids)) by lia.
      exact Herr.
    + rewrite length_app. cbn [List.length]. lia.
Qed.

(** Every error of the loop is a wrapped factory error. *)
Lemma New_fill_error (f : option Factory) (n : nat) :
  forall s err s',
    New_fill f n s = Ret (Some err) s' ->
    exists cause,
      err = fmt_Errorf "factory is not able to fill the pool: " cause.
Proof.
  induction n as [|n IH]; intros s err s' H; cbn [New_fill] in H.
  - discriminate.
  - unfold bind at 1 in H.
    destruct (call_factory f s) as [[conn e] s1|msg s1|s1];
      try discriminate.
    cbn [fst snd] in H. destruct e as [cause|].
    + unfold bind, ret in H. destruct (Close s1); try discriminate.
      injection H as <- _. exists cause. reflexivity.
    + unfold bind at 1 in H.
      destruct (send_conns conn s1) as [u s2|msg s2|s2]; try discriminate.
      eapply IH. exact H.
Qed.

Lemma call_factory_pool (f : option Factory) (s s1 : State)
      (r : Conn * option error) :
  call_factory f s = Ret r s1 -> pool s1 = pool s.
Proof.
  destruct f as [g|]; unfold_go; intros H; [|discriminate].
  injection H as _ <-. reflexivity.
Qed.

Lemma send_conns_pool (conn : Conn) (s s2 : State) (u : unit) (C : Z) :
  send_conns conn s = Ret u s2 ->
  quiescent s -> bounded C s ->
  quiescent s2 /\ bounded C s2 /\ conns (pool s2) <> None /\
  factory (pool s2) = factory (pool s).
Proof.
  unfold quiescent, bounded. open_state s. intros H [Hm Hq] Hb.
  destruct c as [[b cp cl]|]; unfold_go; [|discriminate].
  subst m cl. simpl_go.
  destruct (Z.ltb_spec (Z.of_nat (List.length b)) cp) as [Hlt|Hge];
    [|discriminate].
  injection H as _ <-. simpl_go. destruct Hb as [Hcp Hlen].
  repeat split; try assumption; try discriminate.
  rewrite length_app. cbn [List.length]. lia.
Qed.

(** What the loop leaves when it returns no error. *)
Lemma New_fill_pool (f : option Factory) (n : nat) :
  forall s s' C,
    New_fill f n s = Ret None s' ->
    quiescent s -> bounded C s -> conns (pool s) <> None ->
    quiescent s' /\ bounded C s' /\ conns (pool s') <> None /\
    factory (pool s') = factory (pool s).
Proof.
  induction n as [|n IH]; intros s s' C H Hq Hb Hopen; cbn [New_fill] in H.
  - unfold ret in H. injection H as <-. auto.
  - unfold bind at 1 in H.
    destruct (call_factory f s) as [[conn e] s1|msg s1|s1] eqn:Hcall;
      try discriminate.
    cbn [fst snd] in H. destruct e as [cause|].
    + unfold bind, ret in H. destruct (Close s1); discriminate.
    + unfold bind at 1 in H.
      destruct (send_conns conn s1) as [u s2|msg s2|s2] eqn:Hsend;
        try discriminate.
      apply call_factory_pool in Hcall.
      assert (Hq1 : quiescent s1) by (unfold quiescent; rewrite Hcall; exact Hq).
      assert (Hb1 : bounded C s1) by (unfold bounded; rewrite Hcall; exact Hb).
      destruct (send_conns_pool conn s1 s2 u C Hsend Hq1 Hb1)
        as (Hq2 & Hb2 & Hopen2 & Hf2).
      destruct (IH s2 s' C H Hq2 Hb2 Hopen2) as (Hq' & Hb' & Hopen' & Hf').
      split; [exact Hq'|]. split; [exact Hb'|]. split; [exact Hopen'|].
      rewrite Hf', Hf2, Hcall. reflexivity.
Qed.

(** ** [New] *)

Lemma New_guard (initalCap maxCap : Z) :
  ((initalCap <=? 0) || (maxCap <=? 0) || (initalCap >? maxCap))%Z = true <->
  invalid initalCap maxCap.
Proof.
  unfold invalid. rewrite !orb_true_iff, !Z.leb_le, Z.gtb_gt. tauto.
Qed.

Lemma New_guard_valid (initalCap maxCap : Z) :
  (0 < initalCap <= maxCap)%Z ->
  ((initalCap <=? 0) || (maxCap <=? 0) || (initalCap >? maxCap))%Z = false.
Proof.
  intros H.
  destruct ((initalCap <=? 0) || (maxCap <=? 0) || (initalCap >? maxCap))%Z
    eqn:E; [|reflexivity].
  apply New_guard in E. unfold invalid in E. lia.
Qed.

Lemma make_chan_ok (size : Z) :
  (0 <= size <= chan_limit)%Z -> make_chan size = Some (mkChan [] size false).
Proof.
  intros H. unfold make_chan.
  destruct (Z.ltb_spec size 0); [lia|].
  destruct (Z.ltb_spec chan_limit size); [lia|]. reflexivity.
Qed.

Lemma make_chan_inv (size : Z) (ch : Chan) :
  make_chan size = Some ch ->
  ch = mkChan [] size false /\ (0 <= size <= chan_limit)%Z.
Proof.
  unfold make_chan.
  destruct (Z.ltb_spec size 0) as [Hneg|Hpos]; [discriminate|].
  destruct (Z.ltb_spec chan_limit size) as [Hbig|Hfit]; [discriminate|].
  intros Heq. injection Heq as <-. split; [reflexivity|lia].
Qed.

Lemma make_chan_refuses (size : Z) :
  (chan_limit < size)%Z -> make_chan size = None.
Proof.
  intros H. unfold make_chan.
  destruct (Z.ltb_spec chan_limit size); [|lia].
  rewrite orb_true_r. reflexivity.
Qed.

(** A pool returned by [New] is open, within its capacity, and holds the
    factory it was given. *)
Lemma New_pool (initalCap maxCap : Z) (f : option Factory) (w w' : World)
      (p : Pool) :
  New initalCap maxCap f w = Ret (Some p, None) w' ->
  quiescent (mkState p w') /\ bounded maxCap (mkState p w') /\
  serves f (mkState p w') /\ (0 < initalCap <= maxCap)%Z.
Proof.
  unfold New. intros H.
  destruct ((initalCap <=? 0) || (maxCap <=? 0) || (initalCap >? maxCap))%Z
    eqn:E; [discriminate|].
  assert (Hv : (0 < initalCap <= maxCap)%Z).
  { destruct (Z_lt_le_dec 0 initalCap) as [H0|H0];
      [destruct (Z_le_gt_dec initalCap maxCap) as [H1|H1]|].
    - lia.
    - assert (invalid initalCap maxCap) as Hi by (unfold invalid; lia).
      apply New_guard in Hi. congruence.
    - assert (invalid initalCap maxCap) as Hi by (unfold invalid; lia).
      apply New_guard in Hi. congruence. }
  destruct (make_chan maxCap) as [ch0|] eqn:Hmk; [|discriminate].
  apply make_chan_inv in Hmk. destruct Hmk as [-> Hlim].
  destruct (New_fill f (Z.to_nat initalCap) _) as [[err|] s|msg s|s] eqn:Hfill;
    try discriminate.
  injection H as <- <-.
  apply (New_fill_pool f (Z.to_nat initalCap) _ s maxCap) in Hfill.
  - destruct Hfill as (Hq & Hb & Hopen & Hf).
    destruct s as [ps ws]. repeat split; try apply Hq; try apply Hb; try lia.
    intros _. exact Hf.
  - split; reflexivity.
  - unfold bounded. cbn. lia.
  - discriminate.
Qed.

Lemma exec_serves (f : option Factory) (c : Call) (s : State) :
  mu (pool s) = false -> serves f s -> serves f (exec c s).
Proof.
  unfold serves. open_state s. intros Hm Hs. subst m.
  destruct c as [|conn| | |]; cbn [exec].
  - (* Get *)
    destruct c0 as [[b cp cl]|]; [|intros H; exact (Hs H)].
    specialize (Hs ltac:(discriminate)). subst f0. unfold_go.
    destruct b as [|v rest]; unfold_go.
    + destruct cl; unfold_go; [reflexivity|].
      destruct f as [g|]; reflexivity.
    + destruct v; reflexivity.
  - (* Put *)
    destruct conn as [id|]; [|exact Hs].
    destruct c0 as [[b cp cl]|]; [|intros H; exact (Hs H)].
    specialize (Hs ltac:(discriminate)). subst f0. unfold_go.
    destruct cl; unfold_go; [reflexivity|].
    destruct (Z.of_nat (List.length b) <? cp)%Z; reflexivity.
  - (* Close *)
    pose proof (Close_after_shut (mkState (mkPool c0 f0 false) w) eq_refl)
      as (Hc & _).
    intros H. congruence.
  - exact Hs.
  - exact Hs.
Qed.

(** The states reached from a pool built by [New]. *)
Lemma New_run (initalCap maxCap : Z) (f : option Factory) (w w' : World)
      (p : Pool) (calls : list Call) :
  New initalCap maxCap f w = Ret (Some p, None) w' ->
  quiescent (run calls (mkState p w')) /\
  bounded maxCap (run calls (mkState p w')) /\
  serves f (run calls (mkState p w')).
Proof.
  intros H. apply New_pool in H. destruct H as (Hq & Hb & Hs & _).
  pose proof (run_invariant
                (fun s => quiescent s /\ bounded maxCap s /\ serves f s))
    as Hinv.
  apply Hinv; [|auto].
  intros c s (Hq' & Hb' & Hs'). repeat split.
  - apply exec_quiescent. split; apply Hq'.
  - apply exec_quiescent. split; apply Hq'.
  - apply exec_bounded, Hb'.
  - apply exec_serves; [apply Hq'|exact Hs'].
Qed.

Lemma run_shut (calls : list Call) (s : State) : shut s -> shut (run calls s).
Proof. apply run_invariant. intros c s'. apply exec_shut. Qed.

(** ** Wrapped errors *)

Lemma string_length_append (a b : string) :
  String.length (a ++ b) = String.length a + String.length b.
Proof.
  induction a as [|ch a IH]; cbn [String.append String.length].
  - reflexivity.
  - rewrite IH. reflexivity.
Qed.

Lemma fmt_Errorf_wraps (prefix : string) (err : error) :
  prefix <> EmptyString -> wraps (fmt_Errorf prefix err) err.
Proof. intros H. exists prefix. split; [exact H|reflexivity]. Qed.

Lemma wraps_irrefl (err : error) : ~ wraps err err.
Proof.
  intros (context & Hne & Heq).
  apply (f_equal String.length) in Heq.
  rewrite string_length_append in Heq.
  destruct context as [|ch rest]; [congruence|].
  cbn [String.length] in Heq. lia.
Qed.

Lemma UsedCapacity_eq (s : State) :
  UsedCapacity s = Ret (chan_len (conns (pool s))) s.
Proof. reflexivity. Qed.

Lemma MaximumCapacity_eq (s : State) :
  MaximumCapacity s = Ret (chan_cap (conns (pool s))) s.
Proof. reflexivity. Qed.

(** * The claims *)

(** C1. For a pool built by [New] with capacity [maxCap], after any sequence
    of [Get], [Put], [Close] and observer calls, [UsedCapacity] reports a
    size between 0 and [maxCap]; and when it reports exactly [maxCap], a
    [Put] of a live connection closes that connection, leaves the pool as it
    was, and [UsedCapacity] still reports [maxCap]. *)
Theorem C1_idle_never_exceeds_capacity
    (initalCap maxCap : Z) (f : option Factory) (w w' : World) (p : Pool)
    (calls : list Call) (id : ConnId) (s : State) :
  New initalCap maxCap f w = Ret (Some p, None) w' ->
  s = run calls (mkState p w') ->
  (exists n, UsedCapacity s = Ret n s /\ (0 <= n <= maxCap)%Z) /\
  (UsedCapacity s = Ret maxCap s ->
   Put (Some id) s =
     Ret tt (mkState (pool s)
                     (mkWorld (dials (world s)) (closes (world s) ++ [id]))) /\
   UsedCapacity (after (Put (Some id) s)) =
     Ret maxCap (after (Put (Some id) s))).
Proof.
  intros HNew ->.
  destruct (New_run _ _ _ _ _ _ calls HNew) as (Hq & Hb & _).
  apply New_pool in HNew. destruct HNew as (_ & _ & _ & Hvalid).
  set (s := run calls (mkState p w')) in *.
  split.
  - exists (chan_len (conns (pool s))). split; [reflexivity|].
    unfold bounded in Hb. destruct (conns (pool s)) as [ch|]; cbn [chan_len].
    + lia.
    + lia.
  - rewrite UsedCapacity_eq. intros Hfull. injection Hfull as Hfull.
    assert (HPut : Put (Some id) s =
                   Ret tt (mkState (pool s)
                             (mkWorld (dials (world s))
                                      (closes (world s) ++ [id])))).
    { apply Put_discard; [exact Hq|].
      unfold bounded in Hb. destruct (conns (pool s)) as [ch|];
        cbn [chan_len chan_cap] in *; [|lia].
      destruct Hb as [Hcap _]. lia. }
    split; [exact HPut|].
    rewrite HPut. cbn [after]. rewrite UsedCapacity_eq. cbn [pool].
    rewrite Hfull. reflexivity.
Qed.

(** C2. Once [Close] has returned on a pool, a further [Close], right away
    or after any other calls, returns at once and leaves the pool and the
    world exactly as they were: nothing is drained and no connection is
    closed again. *)
Theorem C2_Close_idempotent (s s' : State) (calls : list Call) :
  Close s = Ret tt s' ->
  Close (run calls s') = Ret tt (run calls s') /\
  closes (world (after (Close (run calls s')))) =
    closes (world (run calls s')).
Proof.
  intros H. apply Close_ret_shut in H.
  pose proof (run_shut calls s' H) as Hs.
  rewrite (Close_shut _ Hs). split; reflexivity.
Qed.

(** C3. Once [Close] has returned on a pool, every later [Get] returns a nil
    connection with the error "pool is closed", the message of
    [ErrPoolClosed], and changes nothing: in particular the count of factory
    invocations stays the same. *)
Theorem C3_Get_after_Close (s s' : State) (calls : list Call) :
  Close s = Ret tt s' ->
  Get (run calls s') =
    Ret (None, Some (errors_New "pool is closed")) (run calls s') /\
  Error (errors_New "pool is closed") = Error ErrPoolClosed /\
  dials (world (after (Get (run calls s')))) = dials (world (run calls s')).
Proof.
  intros H. apply Close_ret_shut in H.
  destruct (run_shut calls s' H) as (Hc & _ & Hm).
  rewrite (Get_closed _ Hc Hm). repeat split.
Qed.

(** C8. Once [Close] has returned on a pool, every later call of
    [MaximumCapacity] and of [UsedCapacity] returns 0. *)
Theorem C8_observers_after_Close (s s' : State) (calls : list Call) :
  Close s = Ret tt s' ->
  MaximumCapacity (run calls s') = Ret 0%Z (run calls s') /\
  UsedCapacity (run calls s') = Ret 0%Z (run calls s').
Proof.
  intros H. apply Close_ret_shut in H.
  destruct (run_shut calls s' H) as (Hc & _ & _).
  rewrite MaximumCapacity_eq, UsedCapacity_eq, Hc. split; reflexivity.
Qed.

(** C4, as the code has it. [New] returns the error "invalid capacity
    settings" (and no pool, without touching the world) when
    [initalCap <= 0], [maxCap <= 0] or [initalCap > maxCap], and returns that
    error in no other case; and for [0 < initalCap <= maxCap], with [maxCap]
    a size the runtime can allocate a channel for and a factory that never
    fails, it returns a pool on which [UsedCapacity] is [initalCap] and
    [MaximumCapacity] is [maxCap]. *)
Theorem C4_New_validation
    (initalCap maxCap : Z) (f : option Factory) (w : World) :
  ((initalCap <= 0 \/ maxCap <= 0 \/ initalCap > maxCap)%Z ->
   New initalCap maxCap f w =
     Ret (None, Some (errors_New "invalid capacity settings")) w) /\
  ((exists w',
      New initalCap maxCap f w =
        Ret (None, Some (errors_New "invalid capacity settings")) w') ->
   (initalCap <= 0 \/ maxCap <= 0 \/ initalCap > maxCap)%Z) /\
  (forall g : Factory,
      (0 < initalCap <= maxCap)%Z ->
      (maxCap <= chan_limit)%Z ->
      f = Some g ->
      (forall k, snd (g k) = None) ->
      exists p w',
        New initalCap maxCap f w = Ret (Some p, None) w' /\
        UsedCapacity (mkState p w') = Ret initalCap (mkState p w') /\
        MaximumCapacity (mkState p w') = Ret maxCap (mkState p w')).
Proof.
  split; [|split].
  - intros Hinv. apply New_guard in Hinv. unfold New. rewrite Hinv.
    reflexivity.
  - intros [w' H]. apply New_guard. unfold New in H.
    destruct ((initalCap <=? 0) || (maxCap <=? 0) || (initalCap >? maxCap))%Z;
      [reflexivity|].
    destruct (make_chan maxCap) as [ch0|]; [|discriminate].
    destruct (New_fill f (Z.to_nat initalCap) _) as [[err|] s|msg s|s] eqn:Hfill;
      try discriminate.
    apply New_fill_error in Hfill. destruct Hfill as [cause ->].
    injection H as H _. cbn in H. discriminate.
  - intros g Hvalid Hlim -> Hok. destruct w as [d cl].
    unfold New. rewrite (New_guard_valid _ _ Hvalid).
    rewrite make_chan_ok by lia. rewrite New_fill_succeeds.
    + eexists. eexists. split; [reflexivity|].
      rewrite UsedCapacity_eq, MaximumCapacity_eq.
      cbn [pool conns chan_len chan_cap buf chcap app].
      rewrite minted_length, Z2Nat.id by lia. split; reflexivity.
    + intros k _. apply Hok.
    + cbn [List.length Nat.add]. rewrite Z2Nat.id by lia. lia.
Qed.

(** C5, as the code has it. When the channel of capacity [maxCap] can be
    allocated, the first [length ids] factory invocations of [New] give the
    live connections [ids] and the next one, still among the [initalCap]
    invocations, fails with [err], then [New] returns no pool and an error
    that wraps [err]; each of the connections [ids] has been closed once, in
    order, and nothing else has been closed. *)
Theorem C5_New_unwinds_on_factory_error
    (initalCap maxCap : Z) (g : Factory) (w : World) (ids : list ConnId)
    (err : error) :
  (0 < initalCap <= maxCap)%Z ->
  (maxCap <= chan_limit)%Z ->
  (Z.of_nat (List.length ids) < initalCap)%Z ->
  (forall i, i < List.length ids ->
             g (dials w + i) = (Some (nth i ids 0), None)) ->
  snd (g (dials w + List.length ids)) = Some err ->
  New initalCap maxCap (Some g) w =
    Ret (None,
         Some (fmt_Errorf "factory is not able to fill the pool: " err))
        (mkWorld (S (dials w + List.length ids)) (closes w ++ ids)) /\
  wraps (fmt_Errorf "factory is not able to fill the pool: " err) err.
Proof.
  intros Hvalid Hlim Hlt Hids Herr. destruct w as [d cl].
  cbn [dials closes] in *.
  split; [|apply fmt_Errorf_wraps; discriminate].
  unfold New. rewrite (New_guard_valid _ _ Hvalid).
  rewrite make_chan_ok by lia.
  change (@nil Conn) with (map (@Some ConnId) []).
  rewrite (New_fill_fails g err ids); try assumption.
  - reflexivity.
  - lia.
  - cbn [List.length Nat.add]. lia.
Qed.

(** [Get] on an open pool with an empty queue, in a state reached from a
    pool built by [New]. *)
Lemma Get_on_drained
    (initalCap maxCap : Z) (f : option Factory) (w w' : World) (p : Pool)
    (calls : list Call) (s : State) :
  New initalCap maxCap f w = Ret (Some p, None) w' ->
  s = run calls (mkState p w') ->
  conns (pool s) <> None ->
  UsedCapacity s = Ret 0%Z s ->
  exists g,
    f = Some g /\
    Get s = Ret (g (dials (world s)))
                (mkState (pool s)
                         (mkWorld (S (dials (world s))) (closes (world s)))).
Proof.
  intros HNew -> Hopen Hlen.
  destruct (New_run _ _ _ _ _ _ calls HNew) as ([Hm Hq] & _ & Hs).
  set (s := run calls (mkState p w')) in *.
  specialize (Hs Hopen).
  assert (Hg : exists g, f = Some g).
  { destruct f as [g|]; [exists g; reflexivity|exfalso].
    unfold New in HNew.
    destruct ((initalCap <=? 0) || (maxCap <=? 0) || (initalCap >? maxCap))%Z
      eqn:E; [discriminate|].
    assert (Hpos : (0 < initalCap)%Z).
    { destruct (Z_lt_le_dec 0 initalCap) as [H0|H0]; [exact H0|].
      assert (invalid initalCap maxCap) as Hi by (unfold invalid; lia).
      apply New_guard in Hi. congruence. }
    destruct (make_chan maxCap) as [ch0|]; [|discriminate].
    destruct (Z.to_nat initalCap) as [|n] eqn:En; [lia|].
    cbn in HNew. discriminate. }
  destruct Hg as [g ->]. exists g. split; [reflexivity|].
  rewrite UsedCapacity_eq in Hlen. injection Hlen as Hlen.
  destruct (conns (pool s)) as [ch|] eqn:Hc; [|congruence].
  cbn [chan_len] in Hlen.
  apply (Get_mint s ch g); try assumption.
  destruct (buf ch); [reflexivity|cbn [List.length] in Hlen; lia].
Qed.

(** C6. On an open pool whose idle queue is empty, [Get] returns: its result
    is the answer of one factory invocation, handed to the caller as it is;
    the pool, its idle queue included, is left as it was, so [UsedCapacity]
    still reports 0. *)
Theorem C6_Get_mints_when_idle_empty
    (initalCap maxCap : Z) (f : option Factory) (w w' : World) (p : Pool)
    (calls : list Call) (s : State) :
  New initalCap maxCap f w = Ret (Some p, None) w' ->
  s = run calls (mkState p w') ->
  conns (pool s) <> None ->
  UsedCapacity s = Ret 0%Z s ->
  exists g,
    f = Some g /\
    Get s = Ret (g (dials (world s)))
                (mkState (pool s)
                         (mkWorld (S (dials (world s))) (closes (world s)))) /\
    pool (after (Get s)) = pool s /\
    UsedCapacity (after (Get s)) = Ret 0%Z (after (Get s)).
Proof.
  intros HNew Hs Hopen Hlen.
  destruct (Get_on_drained _ _ _ _ _ _ _ _ HNew Hs Hopen Hlen)
    as (g & Hf & HGet).
  exists g. split; [exact Hf|]. split; [exact HGet|].
  rewrite HGet. cbn [after pool]. split; [reflexivity|].
  rewrite UsedCapacity_eq in *. cbn [pool].
  injection Hlen as Hlen. rewrite Hlen. reflexivity.
Qed.

(** C7, as the code has it. When the factory invoked by [Get] on an open
    pool with an empty idle queue answers with an error, [Get] returns that
    answer to its caller as it is: the error is the factory's own, with no
    context added, and the pool is left as it was. *)
Theorem C7_Get_returns_factory_error
    (initalCap maxCap : Z) (g : Factory) (w w' : World) (p : Pool)
    (calls : list Call) (s : State) (conn : Conn) (err : error) :
  New initalCap maxCap (Some g) w = Ret (Some p, None) w' ->
  s = run calls (mkState p w') ->
  conns (pool s) <> None ->
  UsedCapacity s = Ret 0%Z s ->
  g (dials (world s)) = (conn, Some err) ->
  Get s = Ret (conn, Some err)
              (mkState (pool s)
                       (mkWorld (S (dials (world s))) (closes (world s)))) /\
  pool (after (Get s)) = pool s.
Proof.
  intros HNew Hs Hopen Hlen Hans.
  destruct (Get_on_drained _ _ _ _ _ _ _ _ HNew Hs Hopen Hlen)
    as (g' & Hf & HGet).
  injection Hf as <-. rewrite HGet, Hans. split; reflexivity.
Qed.

(** C9. [Put] has no error result.  On a pool whose mutex is free and whose
    channel, if any, is not closed, [Put] returns for every argument; when
    the pool is closed or its idle queue is full, a live connection given to
    [Put] is closed and the pool is left as it was. *)
Theorem C9_Put_never_reports (s : State) (conn : Conn) :
  quiescent s ->
  exists s',
    Put conn s = Ret tt s' /\
    (forall id,
        conn = Some id ->
        conns (pool s) = None \/
        (chan_cap (conns (pool s)) <= chan_len (conns (pool s)))%Z ->
        s' = mkState (pool s)
                     (mkWorld (dials (world s)) (closes (world s) ++ [id]))).
Proof.
  intros Hq. destruct conn as [id|].
  - assert (Hfull : conns (pool s) = None \/
                    (chan_cap (conns (pool s)) <= chan_len (conns (pool s)))%Z
                    -> (chan_cap (conns (pool s)) <=
                        chan_len (conns (pool s)))%Z).
    { intros [Hc|H]; [rewrite Hc; cbn; lia|exact H]. }
    destruct (Z_le_gt_dec (chan_cap (conns (pool s)))
                          (chan_len (conns (pool s)))) as [Hle|Hgt].
    + eexists. split; [apply Put_discard; assumption|].
      intros id' Heq _. injection Heq as <-. reflexivity.
    + destruct (conns (pool s)) as [ch|] eqn:Hc; [|cbn in Hgt; lia].
      eexists. split.
      * apply (Put_keep s ch id); [exact Hq|exact Hc|rewrite Hc; lia].
      * intros id' _ H. apply Hfull in H. lia.
  - exists s. split; [reflexivity|]. intros id H. discriminate.
Qed.

(** C10. [Put] of a nil connection returns at once, whatever the state of
    the pool: pool and world are exactly as before, so [UsedCapacity] reports
    the same size and no [Close] was called on anything. *)
Theorem C10_Put_nil_is_noop (s : State) :
  Put None s = Ret tt s /\
  UsedCapacity (after (Put None s)) = UsedCapacity s /\
  closes (world (after (Put None s))) = closes (world s).
Proof. repeat split. Qed.

(** * Further properties of the code *)

(** ** Helper lemmas *)

Lemma range_Close_dials (items : list Conn) (b : bool) :
  forall s, dials (world (after (range_Close items b s))) = dials (world s).
Proof.
  induction items as [|conn rest IH]; intros s; cbn [range_Close].
  - destruct b; reflexivity.
  - destruct conn as [id|]; unfold_go; [|reflexivity].
    rewrite IH. reflexivity.
Qed.

Lemma range_Close_no_block (items : list Conn) :
  forall s s', range_Close items true s <> Block s'.
Proof.
  induction items as [|conn rest IH]; intros s s'; cbn [range_Close].
  - discriminate.
  - destruct conn as [id|]; unfold_go; [|discriminate]. apply IH.
Qed.

Lemma Close_no_block (s s' : State) :
  quiescent s -> Close s <> Block s'.
Proof.
  open_state s. intros [Hm Hq]. cbn in Hm. subst m.
  destruct c as [[b cp cl]|]; unfold_go; [|discriminate].
  cbn in Hq. subst cl. simpl_go. apply range_Close_no_block.
Qed.

Lemma Close_live (s : State) (ch : Chan) (ids : list ConnId) :
  conns (pool s) = Some ch -> buf ch = map Some ids -> closed ch = false ->
  mu (pool s) = false ->
  Close s =
  Ret tt (mkState (mkPool None None false)
                  (mkWorld (dials (world s)) (closes (world s) ++ ids))).
Proof.
  open_state s. destruct ch as [b cp cl]. cbn [buf closed].
  intros Hc Hb Hcl Hm. subst. unfold_go.
  rewrite range_Close_live. reflexivity.
Qed.

Lemma Gets_queue (ids : list ConnId) :
  forall (rest : list Conn) (cp : Z) (cl : bool) (f : option Factory)
         (w : World),
    Gets (List.length ids)
      (mkState (mkPool (Some (mkChan (map Some ids ++ rest) cp cl)) f false) w) =
    Ret (map (fun id => (Some id, None)) ids)
        (mkState (mkPool (Some (mkChan rest cp cl)) f false) w).
Proof.
  induction ids as [|id ids IH]; intros rest cp cl f w;
    cbn [List.length Gets map app].
  - reflexivity.
  - unfold bind at 1.
    rewrite (Get_idle _ (mkChan (Some id :: map Some ids ++ rest) cp cl) id
               (map Some ids ++ rest)) by reflexivity.
    simpl_go. unfold bind at 1. rewrite IH. reflexivity.
Qed.

Lemma run_app (xs ys : list Call) (s : State) :
  run (xs ++ ys) s = run ys (run xs s).
Proof. unfold run. apply fold_left_app. Qed.

Lemma Puts_queue (ids : list ConnId) :
  forall (b : list Conn) (cp : Z) (f : option Factory) (d : nat)
         (cl : list ConnId),
    (Z.of_nat (List.length b) <= cp)%Z ->
    run (Puts ids)
        (mkState (mkPool (Some (mkChan b cp false)) f false) (mkWorld d cl)) =
    mkState
      (mkPool
         (Some (mkChan
                  (b ++ map Some
                          (firstn (Z.to_nat (cp - Z.of_nat (List.length b))) ids))
                  cp false))
         f false)
      (mkWorld d
         (cl ++ skipn (Z.to_nat (cp - Z.of_nat (List.length b))) ids)).
Proof.
  induction ids as [|id ids IH]; intros b cp f d cl Hlen.
  - unfold Puts. cbn [map run fold_left].
    rewrite firstn_nil, skipn_nil. cbn [map]. rewrite !app_nil_r. reflexivity.
  - unfold Puts. cbn [map]. unfold run. cbn [fold_left exec].
    fold (run (Puts ids)).
    destruct (Z_lt_le_dec (Z.of_nat (List.length b)) cp) as [Hlt|Hge].
    + rewrite (Put_keep _ (mkChan b cp false) id);
        [|split; reflexivity|reflexivity|cbn; lia].
      simpl_go. unfold Puts in IH. fold (Puts ids). unfold Puts.
      rewrite IH by (rewrite length_app; cbn [List.length]; lia).
      rewrite length_app. cbn [List.length].
      replace (Z.to_nat (cp - Z.of_nat (List.length b)))
        with (S (Z.to_nat (cp - Z.of_nat (List.length b + 1)))) by lia.
      cbn [firstn skipn map]. rewrite <- app_assoc. reflexivity.
    + rewrite Put_discard; [|split; reflexivity|cbn; lia].
      simpl_go. unfold Puts in IH. unfold Puts. rewrite IH by lia.
      replace (Z.to_nat (cp - Z.of_nat (List.length b))) with 0 by lia.
      cbn [firstn skipn map]. rewrite <- app_assoc. reflexivity.
Qed.

Lemma New_fill_no_block (f : option Factory) (n : nat) :
  forall (b : list Conn) (cp : Z) (f' : option Factory) (w : World)
         (s' : State),
    (Z.of_nat (List.length b + n) <= cp)%Z ->
    New_fill f n
      (mkState (mkPool (Some (mkChan b cp false)) f' false) w) <> Block s'.
Proof.
  induction n as [|n IH]; intros b cp f' w s' Hroom; cbn [New_fill].
  - discriminate.
  - destruct f as [g|]; unfold_go; [|discriminate].
    destruct (snd (g (dials w))) as [err|]; simpl_go.
    + match goal with
      | |- context [range_Close b true ?s0] =>
          destruct (range_Close b true s0) as [u s1|msg s1|s1] eqn:Hr
      end; try discriminate.
      exfalso. exact (range_Close_no_block _ _ _ Hr).
    + destruct (Z.ltb_spec (Z.of_nat (List.length b)) cp) as [Hlt|Hge]; [|lia].
      simpl_go. apply IH. rewrite length_app. cbn [List.length]. lia.
Qed.

Lemma New_valid_settings (initalCap maxCap : Z) :
  ((initalCap <=? 0) || (maxCap <=? 0) || (initalCap >? maxCap))%Z = false ->
  (0 < initalCap <= maxCap)%Z.
Proof.
  intros E.
  destruct (Z_lt_le_dec 0 initalCap) as [H0|H0];
    [destruct (Z_le_gt_dec initalCap maxCap) as [H1|H1]; [lia|]|];
    assert (invalid initalCap maxCap) as Hi by (unfold invalid; lia);
    apply New_guard in Hi; congruence.
Qed.

Lemma New_nil_factory (initalCap maxCap : Z) (w : World) :
  (0 < initalCap <= maxCap)%Z ->
  (maxCap <= chan_limit)%Z ->
  New initalCap maxCap None w = Panic nil_deref w.
Proof.
  intros Hvalid Hlim. unfold New. rewrite (New_guard_valid _ _ Hvalid).
  rewrite make_chan_ok by lia.
  destruct (Z.to_nat initalCap) as [|n] eqn:En; [lia|]. reflexivity.
Qed.

Lemma New_within_limit (initalCap maxCap : Z) (f : option Factory)
      (w w' : World) (p : Pool) (e : option error) :
  New initalCap maxCap f w = Ret (Some p, e) w' -> (maxCap <= chan_limit)%Z.
Proof.
  unfold New. intros H.
  destruct ((initalCap <=? 0) || (maxCap <=? 0) || (initalCap >? maxCap))%Z;
    [discriminate|].
  destruct (make_chan maxCap) as [ch0|] eqn:Hmk; [|discriminate].
  apply make_chan_inv in Hmk. lia.
Qed.

Lemma New_factory_live (initalCap maxCap : Z) (f : option Factory)
      (w w' : World) (p : Pool) :
  New initalCap maxCap f w = Ret (Some p, None) w' -> exists g, f = Some g.
Proof.
  intros H. destruct f as [g|]; [exists g; reflexivity|exfalso].
  pose proof (New_pool _ _ _ _ _ _ H) as (_ & _ & _ & Hvalid).
  pose proof (New_within_limit _ _ _ _ _ _ _ H) as Hlim.
  rewrite (New_nil_factory _ _ w Hvalid Hlim) in H. discriminate.
Qed.

Lemma exec_severed (c : Call) (s : State) :
  mu (pool s) = false -> severed s -> severed (exec c s).
Proof.
  unfold severed. open_state s. intros Hm Hs. subst m.
  destruct c as [|conn| | |]; cbn [exec].
  - (* Get *)
    destruct c0 as [[b cp cl]|]; [|exact Hs]. unfold_go.
    destruct b as [|v rest]; unfold_go.
    + destruct cl; unfold_go; [discriminate|].
      destruct f as [g|]; unfold_go; discriminate.
    + destruct v; discriminate.
  - (* Put *)
    destruct conn as [id|]; [|exact Hs].
    destruct c0 as [[b cp cl]|]; [|exact Hs]. unfold_go.
    destruct cl; unfold_go; [discriminate|].
    destruct (Z.of_nat (List.length b) <? cp)%Z; discriminate.
  - (* Close *)
    pose proof (Close_after_shut (mkState (mkPool c0 f false) w) eq_refl)
      as (_ & Hf & _).
    intros _. exact Hf.
  - exact Hs.
  - exact Hs.
Qed.

Lemma New_open (initalCap maxCap : Z) (f : option Factory) (w w' : World)
      (p : Pool) :
  New initalCap maxCap f w = Ret (Some p, None) w' -> conns p <> None.
Proof.
  unfold New. intros H.
  destruct ((initalCap <=? 0) || (maxCap <=? 0) || (initalCap >? maxCap))%Z
    eqn:E; [discriminate|].
  apply New_valid_settings in E.
  destruct (make_chan maxCap) as [ch0|] eqn:Hmk; [|discriminate].
  apply make_chan_inv in Hmk. destruct Hmk as [-> Hlim].
  destruct (New_fill f (Z.to_nat initalCap) _) as [[err|] s|msg s|s] eqn:Hfill;
    try discriminate.
  injection H as <- _.
  apply (New_fill_pool f (Z.to_nat initalCap) _ s maxCap) in Hfill.
  - apply Hfill.
  - split; reflexivity.
  - unfold bounded. cbn. lia.
  - discriminate.
Qed.

Lemma New_run_severed (initalCap maxCap : Z) (f : option Factory)
      (w w' : World) (p : Pool) (calls : list Call) :
  New initalCap maxCap f w = Ret (Some p, None) w' ->
  severed (run calls (mkState p w')).
Proof.
  intros H. pose proof (New_open _ _ _ _ _ _ H) as Hopen.
  apply New_pool in H. destruct H as (Hq & _).
  pose proof (run_invariant (fun s => quiescent s /\ severed s)) as Hinv.
  apply Hinv.
  - intros c s [Hq' Hs']. split.
    + apply exec_quiescent, Hq'.
    + apply exec_severed; [apply Hq'|exact Hs'].
  - split; [exact Hq|]. intros Hc. cbn in Hc. congruence.
Qed.

Lemma Get_world (s : State) :
  closes (world (after (Get s))) = closes (world s) /\
  dials (world s) <= dials (world (after (Get s))) <= S (dials (world s)).
Proof.
  open_state s.
  destruct m; [split; [reflexivity|cbn; lia]|].
  destruct c as [[b cp cl]|]; [|split; [reflexivity|cbn; lia]]. unfold_go.
  destruct b as [|v rest]; unfold_go.
  - destruct cl; unfold_go; [split; [reflexivity|lia]|].
    destruct f as [g|]; unfold_go; (split; [reflexivity|lia]).
  - destruct v; unfold_go; (split; [reflexivity|lia]).
Qed.

Lemma Put_world (conn : Conn) (s : State) :
  dials (world (after (Put conn s))) = dials (world s) /\
  (closes (world (after (Put conn s))) = closes (world s) \/
   exists id, conn = Some id /\
              closes (world (after (Put conn s))) = closes (world s) ++ [id]).
Proof.
  open_state s. destruct conn as [id|]; [|cbn; auto].
  destruct m; [cbn; auto|].
  destruct c as [[b cp cl]|]; unfold_go.
  - destruct cl; unfold_go; [auto|].
    destruct (Z.of_nat (List.length b) <? cp)%Z; unfold_go; eauto.
  - eauto.
Qed.

Lemma Close_world (s : State) :
  dials (world (after (Close s))) = dials (world s).
Proof.
  open_state s. destruct m; [reflexivity|].
  destruct c as [[b cp cl]|]; unfold_go; [|reflexivity].
  destruct cl; unfold_go; [reflexivity|].
  rewrite range_Close_dials. reflexivity.
Qed.

(** ** Properties *)

(** X1. [Get] is first in, first out: when the queue of a pool starts with
    the live connections [ids], that many calls of [Get] return them in
    queue order, each with a nil error; the rest of the queue stays, and the
    factory is not invoked and nothing is closed. *)
Theorem X1_Gets_return_queue_in_order
    (s : State) (ch : Chan) (ids : list ConnId) (rest : list Conn) :
  conns (pool s) = Some ch ->
  buf ch = map Some ids ++ rest ->
  mu (pool s) = false ->
  Gets (List.length ids) s =
    Ret (map (fun id => (Some id, None)) ids)
        (mkState (mkPool (Some (mkChan rest (chcap ch) (closed ch)))
                         (factory (pool s)) false)
                 (world s)).
Proof.
  open_state s. destruct ch as [b cp cl]. cbn [buf chcap closed].
  intros -> -> ->. apply Gets_queue.
Qed.

(** X2. On an open pool with an empty queue and a positive capacity, [Put]
    of a live connection queues it ([UsedCapacity] becomes 1) and the next
    [Get] hands the same connection back, leaving the state exactly as it
    was before the [Put]: no factory invocation, nothing closed. *)
Theorem X2_Put_then_Get_round_trip (s : State) (ch : Chan) (id : ConnId) :
  conns (pool s) = Some ch ->
  buf ch = [] ->
  closed ch = false ->
  mu (pool s) = false ->
  (0 < chcap ch)%Z ->
  exists s1,
    Put (Some id) s = Ret tt s1 /\
    UsedCapacity s1 = Ret 1%Z s1 /\
    Get s1 = Ret (Some id, None) s.
Proof.
  open_state s. destruct ch as [b cp cl]. cbn [buf chcap closed].
  intros -> -> -> -> Hcap. eexists. split.
  - apply (Put_keep _ (mkChan [] cp false) id);
      [split; reflexivity|reflexivity|cbn; lia].
  - split; reflexivity.
Qed.

(** X3. A sequence of [Put]s of live connections into an open pool fills the
    free room of the queue in order; every connection beyond the room is
    closed, in order, and the queue never grows past its capacity. *)
Theorem X3_Puts_fill_then_discard
    (s : State) (ch : Chan) (ids : list ConnId) :
  quiescent s ->
  conns (pool s) = Some ch ->
  (Z.of_nat (List.length (buf ch)) <= chcap ch)%Z ->
  run (Puts ids) s =
    mkState
      (mkPool
         (Some (mkChan
                  (buf ch ++
                   map Some
                     (firstn
                        (Z.to_nat (chcap ch - Z.of_nat (List.length (buf ch))))
                        ids))
                  (chcap ch) false))
         (factory (pool s)) false)
      (mkWorld (dials (world s))
         (closes (world s) ++
          skipn (Z.to_nat (chcap ch - Z.of_nat (List.length (buf ch)))) ids)).
Proof.
  open_state s. destruct ch as [b cp cl]. destruct w as [d cls].
  intros [Hm Hq] Hc Hlen. cbn in Hm. subst m c. cbn in Hq. subst cl.
  cbn [buf chcap dials closes world] in *. apply Puts_queue. exact Hlen.
Qed.

(** X4. [Close] on an open pool whose queue holds the live connections [ids]
    returns, calls [Close()] on each of them once, in queue order, and on
    nothing else; it invokes no factory and leaves the pool without channel
    and without factory, the mutex free. *)
Theorem X4_Close_closes_each_idle_connection_once
    (s : State) (ch : Chan) (ids : list ConnId) :
  conns (pool s) = Some ch ->
  buf ch = map Some ids ->
  closed ch = false ->
  mu (pool s) = false ->
  Close s =
    Ret tt (mkState (mkPool None None false)
                    (mkWorld (dials (world s)) (closes (world s) ++ ids))).
Proof. apply Close_live. Qed.

(** X5. [Close] never blocks and always shuts the pool: whether it returns
    or panics while draining (a nil in the queue), the pool is left with a
    nil channel, a nil factory and the mutex released. *)
Theorem X5_Close_always_shuts (s : State) :
  quiescent s ->
  shut (after (Close s)) /\ forall s', Close s <> Block s'.
Proof.
  intros Hq. split.
  - apply Close_after_shut, Hq.
  - intros s'. apply Close_no_block, Hq.
Qed.

(** X6. For valid settings with [maxCap] a size the runtime can allocate a
    channel for, when the [initalCap] factory invocations made by [New] all
    give a nil error, the pool returned holds exactly their
    answers, in the order of the invocations; the factory was invoked
    [initalCap] times and no more, nothing was closed, and the pool keeps the
    factory, an open channel of capacity [maxCap] and a free mutex. *)
Theorem X6_New_queues_the_answers_in_order
    (initalCap maxCap : Z) (g : Factory) (w : World) :
  (0 < initalCap <= maxCap)%Z ->
  (maxCap <= chan_limit)%Z ->
  (forall k, dials w <= k < dials w + Z.to_nat initalCap ->
             snd (g k) = None) ->
  New initalCap maxCap (Some g) w =
    Ret (Some (mkPool
                 (Some (mkChan (minted g (dials w) (Z.to_nat initalCap))
                               maxCap false))
                 (Some g) false),
         None)
        (mkWorld (dials w + Z.to_nat initalCap) (closes w)).
Proof.
  intros Hvalid Hlim Hok. destruct w as [d cl]. cbn [dials closes] in *.
  unfold New. rewrite (New_guard_valid _ _ Hvalid).
  rewrite make_chan_ok by lia. rewrite New_fill_succeeds.
  - reflexivity.
  - exact Hok.
  - cbn [List.length Nat.add]. rewrite Z2Nat.id by lia. lia.
Qed.

(** X7. With valid settings, [maxCap] a size the runtime can allocate a
    channel for, and a nil factory, [New] panics on the first invocation
    (nil func call), and the world is untouched. *)
Theorem X7_New_nil_factory_panics (initalCap maxCap : Z) (w : World) :
  (0 < initalCap <= maxCap)%Z ->
  (maxCap <= chan_limit)%Z ->
  New initalCap maxCap None w = Panic nil_deref w.
Proof. apply New_nil_factory. Qed.

(** X8. [New] never blocks, and when it returns it returns either a pool and
    a nil error, or a nil pool and an error; that error is "invalid capacity
    settings" or a factory error behind the prefix "factory is not able to
    fill the pool: ". *)
Theorem X8_New_result_shape
    (initalCap maxCap : Z) (f : option Factory) (w : World) :
  (forall w', New initalCap maxCap f w <> Block w') /\
  (forall p e w',
      New initalCap maxCap f w = Ret (p, e) w' ->
      (exists q, p = Some q /\ e = None) \/
      (p = None /\
       (e = Some (errors_New "invalid capacity settings") \/
        exists cause,
          e = Some (fmt_Errorf "factory is not able to fill the pool: "
                      cause)))).
Proof.
  unfold New.
  destruct ((initalCap <=? 0) || (maxCap <=? 0) || (initalCap >? maxCap))%Z
    eqn:E.
  - split; [discriminate|].
    intros p e w' H. injection H as <- <- _. right. auto.
  - apply New_valid_settings in E.
    destruct (make_chan maxCap) as [ch0|] eqn:Hmk; [|split; discriminate].
    apply make_chan_inv in Hmk. destruct Hmk as [-> Hlim].
    destruct (New_fill f (Z.to_nat initalCap) _) as [[err|] s|msg s|s] eqn:Hfill.
    + split; [discriminate|].
      intros p e w' H. injection H as <- <- _. right. split; [reflexivity|].
      right. apply New_fill_error in Hfill. destruct Hfill as [cause ->].
      exists cause. reflexivity.
    + split; [discriminate|].
      intros p e w' H. injection H as <- <- _. left. eauto.
    + split; discriminate.
    + exfalso.
      apply New_fill_no_block in Hfill; [exact Hfill|].
      cbn [List.length Nat.add]. rewrite Z2Nat.id by lia. lia.
Qed.

(** X9. A pool built by [New] is, after any sequence of calls, in one of two
    states, with the mutex free: open, with a channel that is not closed and
    has capacity [maxCap] (which [MaximumCapacity] reports) and with the
    factory it was built with; or closed, with a nil channel and a nil
    factory. *)
Theorem X9_reachable_open_or_closed
    (initalCap maxCap : Z) (f : option Factory) (w w' : World) (p : Pool)
    (calls : list Call) (s : State) :
  New initalCap maxCap f w = Ret (Some p, None) w' ->
  s = run calls (mkState p w') ->
  mu (pool s) = false /\
  ((exists ch,
       conns (pool s) = Some ch /\ closed ch = false /\ chcap ch = maxCap /\
       factory (pool s) = f /\ MaximumCapacity s = Ret maxCap s) \/
   (conns (pool s) = None /\ factory (pool s) = None)).
Proof.
  intros HNew ->.
  destruct (New_run _ _ _ _ _ _ calls HNew) as ([Hm Hq] & Hb & Hs).
  pose proof (New_run_severed _ _ _ _ _ _ calls HNew) as Hsev.
  set (s := run calls (mkState p w')) in *.
  split; [exact Hm|].
  unfold bounded, serves, severed in *. rewrite MaximumCapacity_eq.
  destruct (conns (pool s)) as [ch|].
  - left. exists ch. destruct Hb as [Hcap _]. cbn [chan_cap].
    repeat split; try assumption.
    + apply Hs. discriminate.
    + rewrite Hcap. reflexivity.
  - right. split; [reflexivity|]. apply Hsev. reflexivity.
Qed.

(** X10. What the calls leave alone, in every state: [Get] closes no
    connection and invokes the factory at most once; [Put] invokes no
    factory and closes at most the connection it was given; [Close] invokes
    no factory; [MaximumCapacity] and [UsedCapacity] change nothing. *)
Theorem X10_calls_frame (s : State) (conn : Conn) :
  (closes (world (after (Get s))) = closes (world s) /\
   dials (world s) <= dials (world (after (Get s))) <= S (dials (world s))) /\
  (dials (world (after (Put conn s))) = dials (world s) /\
   (closes (world (after (Put conn s))) = closes (world s) \/
    exists id, conn = Some id /\
               closes (world (after (Put conn s))) =
                 closes (world s) ++ [id])) /\
  dials (world (after (Close s))) = dials (world s) /\
  after (MaximumCapacity s) = s /\
  after (UsedCapacity s) = s.
Proof.
  split; [apply Get_world|]. split; [apply Put_world|].
  split; [apply Close_world|]. split; reflexivity.
Qed.

(** X11. On a pool built by [New], after any sequence of calls, [Get]
    returns: it neither panics nor blocks. *)
Theorem X11_Get_returns
    (initalCap maxCap : Z) (f : option Factory) (w w' : World) (p : Pool)
    (calls : list Call) (s : State) :
  New initalCap maxCap f w = Ret (Some p, None) w' ->
  s = run calls (mkState p w') ->
  exists r s', Get s = Ret r s'.
Proof.
  intros HNew ->.
  destruct (New_run _ _ _ _ _ _ calls HNew) as ([Hm Hq] & _ & Hs).
  destruct (New_factory_live _ _ _ _ _ _ HNew) as [g ->].
  set (s := run calls (mkState p w')) in *.
  unfold serves in Hs.
  destruct (conns (pool s)) as [ch|] eqn:Hc.
  - specialize (Hs ltac:(discriminate)).
    destruct (buf ch) as [|[id|] rest] eqn:Hb.
    + eexists. eexists. apply (Get_mint s ch g); assumption.
    + eexists. eexists. apply (Get_idle s ch id rest); assumption.
    + clearbody s. open_state s. destruct ch as [b cp cl].
      cbn [buf closed] in *. subst. eexists. eexists. reflexivity.
  - eexists. eexists. apply Get_closed; assumption.
Qed.

(** X12. [Put] does not look for duplicates: a live connection put twice
    into an open pool with room for two is queued twice, and [Close] then
    calls [Close()] on it twice. *)
Theorem X12_Put_twice_is_closed_twice
    (s : State) (ch : Chan) (ids : list ConnId) (id : ConnId) :
  quiescent s ->
  conns (pool s) = Some ch ->
  buf ch = map Some ids ->
  (Z.of_nat (List.length ids) + 2 <= chcap ch)%Z ->
  UsedCapacity (run [CallPut (Some id); CallPut (Some id)] s) =
    Ret (Z.of_nat (List.length ids) + 2)%Z
        (run [CallPut (Some id); CallPut (Some id)] s) /\
  run [CallPut (Some id); CallPut (Some id); CallClose] s =
    mkState (mkPool None None false)
            (mkWorld (dials (world s)) (closes (world s) ++ ids ++ [id; id])).
Proof.
  open_state s. destruct ch as [b cp cl]. destruct w as [d cls].
  intros [Hm Hq] Hc Hb Hroom. cbn in Hm, Hq, Hb, Hroom. subst m c b.
  cbn in Hq. subst cl. cbn [dials closes world].
  assert (HPuts :
    run [CallPut (Some id); CallPut (Some id)]
      (mkState (mkPool (Some (mkChan (map Some ids) cp false)) f false)
               (mkWorld d cls)) =
    mkState (mkPool (Some (mkChan (map Some (ids ++ [id; id])) cp false))
                    f false)
            (mkWorld d cls)).
  { change [CallPut (Some id); CallPut (Some id)] with (Puts [id; id]).
    rewrite Puts_queue by (rewrite length_map; lia).
    rewrite length_map.
    rewrite firstn_all2 by (cbn [List.length]; lia).
    rewrite skipn_all2 by (cbn [List.length]; lia).
    rewrite app_nil_r, map_app. reflexivity. }
  split.
  - rewrite HPuts, UsedCapacity_eq. cbn [pool conns chan_len buf].
    rewrite length_map, length_app. cbn [List.length].
    f_equal. lia.
  - change [CallPut (Some id); CallPut (Some id); CallClose]
      with ([CallPut (Some id); CallPut (Some id)] ++ [CallClose]).
    rewrite run_app, HPuts. unfold run. cbn [fold_left exec].
    rewrite (Close_live _ (mkChan (map Some (ids ++ [id; id])) cp false)
               (ids ++ [id; id])) by reflexivity.
    reflexivity.
Qed.

(** X13. A nil at the head of the queue of an open pool makes [Get] report
    "pool is closed": the nil is taken off the queue, the pool stays open,
    and the factory is not invoked. *)
Theorem X13_Get_nil_head_reports_closed
    (s : State) (ch : Chan) (rest : list Conn) :
  conns (pool s) = Some ch ->
  buf ch = None :: rest ->
  mu (pool s) = false ->
  Get s =
    Ret (None, Some (errors_New "pool is closed"))
        (mkState (mkPool (Some (mkChan rest (chcap ch) (closed ch)))
                         (factory (pool s)) false)
                 (world s)).
Proof.
  open_state s. destruct ch as [b cp cl]. cbn [buf chcap closed].
  intros -> -> ->. reflexivity.
Qed.

(** X14. With valid settings and [maxCap] beyond the size the runtime can
    allocate a channel for, [New] panics in [make] with "makechan: size out
    of range", whatever the factory: no invocation is made and the world is
    untouched. *)
Theorem X14_New_panics_beyond_limit
    (initalCap maxCap : Z) (f : option Factory) (w : World) :
  (0 < initalCap <= maxCap)%Z ->
  (chan_limit < maxCap)%Z ->
  New initalCap maxCap f w = Panic "makechan: size out of range" w.
Proof.
  intros Hvalid Hbig. unfold New. rewrite (New_guard_valid _ _ Hvalid).
  rewrite make_chan_refuses by exact Hbig. reflexivity.
Qed.

End Runtime.

(** * The scenarios of the test files *)

(** [TestNew], [TestPool_MaximumCapacity], [TestPool_UsedCapacity] *)
Example test_New :
  exists p w,
    New limit_amd64 InitialCap MaximumCap (Some dial) fresh_world = Ret (Some p, None) w /\
    MaximumCapacity (mkState p w) = Ret MaximumCap (mkState p w) /\
    UsedCapacity (mkState p w) = Ret InitialCap (mkState p w).
Proof. eexists. eexists. repeat split. Qed.

(** [TestPool_Get]: one [Get] leaves 4 idle connections, four more leave
    none, and a sixth [Get] still returns a connection. *)
Example test_Get :
  forall p w,
    New limit_amd64 InitialCap MaximumCap (Some dial) fresh_world = Ret (Some p, None) w ->
    UsedCapacity (run [CallGet] (mkState p w)) =
      Ret 4%Z (run [CallGet] (mkState p w)) /\
    UsedCapacity (run (repeat CallGet 5) (mkState p w)) =
      Ret 0%Z (run (repeat CallGet 5) (mkState p w)) /\
    exists s',
      Get (run (repeat CallGet 5) (mkState p w)) = Ret (Some 5, None) s'.
Proof.
  intros p w H. cbv in H. injection H as <- <-.
  split; [reflexivity|]. split; [reflexivity|]. eexists. reflexivity.
Qed.

(** [TestPool_Put] of [pool_test.go]: a connection taken and put back. *)
Example test_Put :
  UsedCapacity (run [CallPut (Some 0)] (drained dial)) =
    Ret 1%Z (run [CallPut (Some 0)] (drained dial)).
Proof. reflexivity. Qed.

(** A factory that answers a nil connection with a nil error gets the nil
    queued like a connection: [Get] then reports "pool is closed" on an open
    pool, and [Close] panics while draining. *)
Example nil_connection_queued :
  let s := mkState (mkPool (Some (mkChan [None] 1 false))
                           (Some (fun _ => (None, None))) false)
                   (mkWorld 1 []) in
  New limit_amd64 1 1 (Some (fun _ => (None, None))) fresh_world =
    Ret (Some (pool s), None) (world s) /\
  Get s = Ret (None, Some (errors_New "pool is closed"))
              (mkState (mkPool (Some (mkChan [] 1 false))
                               (Some (fun _ => (None, None))) false)
                       (mkWorld 1 [])) /\
  Close s = Panic nil_deref (mkState (mkPool None None false) (mkWorld 1 [])).
Proof. repeat split. Qed.

(** * Instances

    Each statement above that has a hypothesis, applied to a concrete pool. *)

Lemma C1_idle_never_exceeds_capacity_witness :
  (exists n, UsedCapacity (one_idle dial) = Ret n (one_idle dial) /\
             (0 <= n <= 1)%Z) /\
  Put (Some 7) (one_idle dial) =
    Ret tt (mkState (pool (one_idle dial)) (mkWorld 1 [7])) /\
  UsedCapacity (after (Put (Some 7) (one_idle dial))) =
    Ret 1%Z (after (Put (Some 7) (one_idle dial))).
Proof.
  destruct (C1_idle_never_exceeds_capacity limit_amd64
              1 1 (Some dial) fresh_world (mkWorld 1 [])
              (pool (one_idle dial)) [] 7 (one_idle dial)
              eq_refl eq_refl) as [Hlen Hfull].
  split; [exact Hlen|exact (Hfull eq_refl)].
Defined.

Lemma C2_Close_idempotent_witness :
  Close (run [CallPut (Some 3); CallGet] closed_one) =
    Ret tt (run [CallPut (Some 3); CallGet] closed_one) /\
  closes (world (after (Close (run [CallPut (Some 3); CallGet] closed_one)))) =
    closes (world (run [CallPut (Some 3); CallGet] closed_one)).
Proof.
  exact (C2_Close_idempotent (one_idle dial) closed_one
           [CallPut (Some 3); CallGet] eq_refl).
Defined.

Lemma C3_Get_after_Close_witness :
  Get (run [CallPut (Some 3); CallClose] closed_one) =
    Ret (None, Some (errors_New "pool is closed"))
        (run [CallPut (Some 3); CallClose] closed_one) /\
  Error (errors_New "pool is closed") = Error ErrPoolClosed /\
  dials (world (after (Get (run [CallPut (Some 3); CallClose] closed_one)))) =
    dials (world (run [CallPut (Some 3); CallClose] closed_one)).
Proof.
  exact (C3_Get_after_Close (one_idle dial) closed_one
           [CallPut (Some 3); CallClose] eq_refl).
Defined.

Lemma C8_observers_after_Close_witness :
  MaximumCapacity (run [CallGet; CallPut (Some 3)] closed_one) =
    Ret 0%Z (run [CallGet; CallPut (Some 3)] closed_one) /\
  UsedCapacity (run [CallGet; CallPut (Some 3)] closed_one) =
    Ret 0%Z (run [CallGet; CallPut (Some 3)] closed_one).
Proof.
  exact (C8_observers_after_Close (one_idle dial) closed_one
           [CallGet; CallPut (Some 3)] eq_refl).
Defined.

Lemma C4_New_validation_witness :
  New limit_amd64 0 MaximumCap (Some dial) fresh_world =
    Ret (None, Some (errors_New "invalid capacity settings")) fresh_world /\
  exists p w',
    New limit_amd64 InitialCap MaximumCap (Some dial) fresh_world = Ret (Some p, None) w' /\
    UsedCapacity (mkState p w') = Ret InitialCap (mkState p w') /\
    MaximumCapacity (mkState p w') = Ret MaximumCap (mkState p w').
Proof.
  split.
  - apply (proj1 (C4_New_validation limit_amd64 0 MaximumCap (Some dial) fresh_world)).
    left. lia.
  - apply (proj2 (proj2 (C4_New_validation limit_amd64 InitialCap MaximumCap (Some dial)
                           fresh_world)) dial).
    + unfold InitialCap, MaximumCap. lia.
    + unfold MaximumCap, limit_amd64. lia.
    + reflexivity.
    + intros k. reflexivity.
Defined.

(** C4, as the claim has it, fails: with the settings 1 and [MaxInt64],
    which satisfy [0 < initalCap <= maxCap], and the factory [dial], which
    never fails, [New] returns no pool: it panics in [make]. *)
Lemma C4_New_panics_on_huge_capacity :
  (0 < 1 <= MaxInt64)%Z /\
  (forall k, snd (dial k) = None) /\
  New limit_amd64 1 MaxInt64 (Some dial) fresh_world =
    Panic "makechan: size out of range" fresh_world /\
  ~ (exists p w',
        New limit_amd64 1 MaxInt64 (Some dial) fresh_world =
          Ret (Some p, None) w').
Proof.
  split; [unfold MaxInt64; lia|].
  split; [intros k; reflexivity|].
  split; [reflexivity|].
  intros (p & w' & H). cbv in H. discriminate.
Qed.

Lemma C5_New_unwinds_on_factory_error_witness :
  New limit_amd64 2 2 (Some refusing) fresh_world =
    Ret (None,
         Some (fmt_Errorf "factory is not able to fill the pool: "
                 (errors_New "connection refused")))
        (mkWorld 2 [0]) /\
  wraps (fmt_Errorf "factory is not able to fill the pool: "
           (errors_New "connection refused"))
        (errors_New "connection refused").
Proof.
  apply (C5_New_unwinds_on_factory_error limit_amd64 2 2 refusing fresh_world [0]
           (errors_New "connection refused")).
  - lia.
  - unfold limit_amd64. lia.
  - cbn. lia.
  - intros i Hi. cbn in Hi. destruct i as [|i]; [reflexivity|lia].
  - reflexivity.
Defined.

(** C5, as the claim has it, fails: with the factory [nil_then_refusing]
    the second of the two invocations of [New(2, 2, _)] fails, and [New]
    returns no error: it panics in [Close], on the nil it had queued. *)
Lemma C5_New_panics_on_queued_nil :
  snd (nil_then_refusing 1) = Some (errors_New "connection refused") /\
  New limit_amd64 2 2 (Some nil_then_refusing) fresh_world =
    Panic nil_deref (mkWorld 2 []) /\
  ~ (exists e w',
        New limit_amd64 2 2 (Some nil_then_refusing) fresh_world =
          Ret (None, Some e) w').
Proof.
  split; [reflexivity|]. split; [reflexivity|].
  intros (e & w' & H). cbv in H. discriminate.
Qed.

Lemma C6_Get_mints_when_idle_empty_witness :
  exists g,
    Some dial = Some g /\
    Get (drained dial) =
      Ret (g 1) (mkState (pool (drained dial)) (mkWorld 2 [])) /\
    pool (after (Get (drained dial))) = pool (drained dial) /\
    UsedCapacity (after (Get (drained dial))) =
      Ret 0%Z (after (Get (drained dial))).
Proof.
  apply (C6_Get_mints_when_idle_empty limit_amd64 1 1 (Some dial) fresh_world
           (mkWorld 1 []) (pool (one_idle dial)) [CallGet] (drained dial)).
  - reflexivity.
  - reflexivity.
  - discriminate.
  - reflexivity.
Defined.

Lemma C7_Get_returns_factory_error_witness :
  Get (drained refusing) =
    Ret (None, Some (errors_New "connection refused"))
        (mkState (pool (drained refusing)) (mkWorld 2 [])) /\
  pool (after (Get (drained refusing))) = pool (drained refusing).
Proof.
  apply (C7_Get_returns_factory_error limit_amd64 1 1 refusing fresh_world
           (mkWorld 1 []) (pool (one_idle refusing)) [CallGet]
           (drained refusing) None (errors_New "connection refused")).
  - reflexivity.
  - reflexivity.
  - discriminate.
  - reflexivity.
  - reflexivity.
Defined.

(** C7, as the claim has it, fails: the pool [New(1, 1, refusing)] is open
    and empty after one [Get]; the factory then answers "connection
    refused", and the error [Get] returns is that very error, which carries
    no context in front of the factory's message. *)
Lemma C7_Get_error_not_wrapped :
  New limit_amd64 1 1 (Some refusing) fresh_world =
    Ret (Some (pool (one_idle refusing)), None) (mkWorld 1 []) /\
  run [CallGet] (one_idle refusing) = drained refusing /\
  UsedCapacity (drained refusing) = Ret 0%Z (drained refusing) /\
  refusing (dials (world (drained refusing))) =
    (None, Some (errors_New "connection refused")) /\
  ~ (exists conn e s',
        Get (drained refusing) = Ret (conn, Some e) s' /\
        wraps e (errors_New "connection refused")).
Proof.
  repeat (split; [reflexivity|]).
  intros (conn & e & s' & HGet & Hwraps).
  cbv in HGet. injection HGet as _ <- _.
  exact (wraps_irrefl _ Hwraps).
Qed.

Lemma C9_Put_never_reports_witness :
  exists s',
    Put (Some 7) (one_idle dial) = Ret tt s' /\
    (forall id,
        Some 7 = Some id ->
        conns (pool (one_idle dial)) = None \/
        (chan_cap (conns (pool (one_idle dial))) <=
         chan_len (conns (pool (one_idle dial))))%Z ->
        s' = mkState (pool (one_idle dial))
                     (mkWorld (dials (world (one_idle dial)))
                              (closes (world (one_idle dial)) ++ [id]))).
Proof.
  apply (C9_Put_never_reports (one_idle dial) (Some 7)).
  split; reflexivity.
Defined.

(** ** Instances of the further properties *)

Lemma X1_Gets_return_queue_in_order_witness :
  Gets 2
    (mkState (mkPool (Some (mkChan [Some 4; Some 5; None] 3 false))
                     (Some dial) false)
             fresh_world) =
  Ret [(Some 4, None); (Some 5, None)]
      (mkState (mkPool (Some (mkChan [None] 3 false)) (Some dial) false)
               fresh_world).
Proof.
  exact (X1_Gets_return_queue_in_order
           (mkState (mkPool (Some (mkChan [Some 4; Some 5; None] 3 false))
                            (Some dial) false)
                    fresh_world)
           (mkChan [Some 4; Some 5; None] 3 false) [4; 5] [None]
           eq_refl eq_refl eq_refl).
Defined.

Lemma X2_Put_then_Get_round_trip_witness :
  exists s1,
    Put (Some 9) (drained dial) = Ret tt s1 /\
    UsedCapacity s1 = Ret 1%Z s1 /\
    Get s1 = Ret (Some 9, None) (drained dial).
Proof.
  apply (X2_Put_then_Get_round_trip (drained dial) (mkChan [] 1 false) 9).
  - reflexivity.
  - reflexivity.
  - reflexivity.
  - reflexivity.
  - cbn. lia.
Defined.

Lemma X3_Puts_fill_then_discard_witness :
  run (Puts [7; 8; 9])
      (mkState (mkPool (Some (mkChan [Some 0] 2 false)) (Some dial) false)
               (mkWorld 1 [])) =
  mkState (mkPool (Some (mkChan [Some 0; Some 7] 2 false)) (Some dial) false)
          (mkWorld 1 [8; 9]).
Proof.
  apply (X3_Puts_fill_then_discard
           (mkState (mkPool (Some (mkChan [Some 0] 2 false)) (Some dial) false)
                    (mkWorld 1 []))
           (mkChan [Some 0] 2 false) [7; 8; 9]).
  - split; reflexivity.
  - reflexivity.
  - cbn. lia.
Defined.

Lemma X4_Close_closes_each_idle_connection_once_witness :
  Close (one_idle dial) = Ret tt closed_one.
Proof.
  exact (X4_Close_closes_each_idle_connection_once
           (one_idle dial) (mkChan [Some 0] 1 false) [0]
           eq_refl eq_refl eq_refl eq_refl).
Defined.

Lemma X5_Close_always_shuts_witness :
  shut (after (Close
                 (mkState (mkPool (Some (mkChan [Some 1; None] 2 false))
                                  (Some dial) false)
                          fresh_world))) /\
  forall s',
    Close (mkState (mkPool (Some (mkChan [Some 1; None] 2 false))
                           (Some dial) false)
                   fresh_world) <> Block s'.
Proof.
  apply (X5_Close_always_shuts
           (mkState (mkPool (Some (mkChan [Some 1; None] 2 false))
                            (Some dial) false)
                    fresh_world)).
  split; reflexivity.
Defined.

Lemma X6_New_queues_the_answers_in_order_witness :
  New limit_amd64 InitialCap MaximumCap (Some dial) fresh_world =
  Ret (Some (mkPool
               (Some (mkChan [Some 0; Some 1; Some 2; Some 3; Some 4]
                             MaximumCap false))
               (Some dial) false),
       None)
      (mkWorld 5 []).
Proof.
  apply (X6_New_queues_the_answers_in_order limit_amd64
           InitialCap MaximumCap dial fresh_world).
  - unfold InitialCap, MaximumCap. lia.
  - unfold MaximumCap, limit_amd64. lia.
  - intros k _. reflexivity.
Defined.

Lemma X7_New_nil_factory_panics_witness :
  New limit_amd64 InitialCap MaximumCap None fresh_world = Panic nil_deref fresh_world.
Proof.
  apply (X7_New_nil_factory_panics limit_amd64 InitialCap MaximumCap
           fresh_world).
  - unfold InitialCap, MaximumCap. lia.
  - unfold MaximumCap, limit_amd64. lia.
Defined.

Lemma X8_New_result_shape_witness :
  (exists q : Pool,
      @None Pool = Some q /\
      Some (errors_New "invalid capacity settings") = None) \/
  (@None Pool = None /\
   (Some (errors_New "invalid capacity settings") =
      Some (errors_New "invalid capacity settings") \/
    exists cause,
      Some (errors_New "invalid capacity settings") =
        Some (fmt_Errorf "factory is not able to fill the pool: " cause))).
Proof.
  exact (proj2 (X8_New_result_shape limit_amd64 0 MaximumCap (Some dial) fresh_world)
           None (Some (errors_New "invalid capacity settings")) fresh_world
           eq_refl).
Defined.

Lemma X9_reachable_open_or_closed_witness :
  mu (pool (drained dial)) = false /\
  ((exists ch,
       conns (pool (drained dial)) = Some ch /\ closed ch = false /\
       chcap ch = 1%Z /\ factory (pool (drained dial)) = Some dial /\
       MaximumCapacity (drained dial) = Ret 1%Z (drained dial)) \/
   (conns (pool (drained dial)) = None /\
    factory (pool (drained dial)) = None)).
Proof.
  exact (X9_reachable_open_or_closed limit_amd64 1 1 (Some dial) fresh_world
           (mkWorld 1 []) (pool (one_idle dial)) [CallGet] (drained dial)
           eq_refl eq_refl).
Defined.

Lemma X11_Get_returns_witness :
  exists r s', Get (drained dial) = Ret r s'.
Proof.
  exact (X11_Get_returns limit_amd64 1 1 (Some dial) fresh_world
           (mkWorld 1 []) (pool (one_idle dial)) [CallGet] (drained dial)
           eq_refl eq_refl).
Defined.

Lemma X12_Put_twice_is_closed_twice_witness :
  UsedCapacity
    (run [CallPut (Some 4); CallPut (Some 4)]
       (mkState (mkPool (Some (mkChan [] 2 false)) (Some dial) false)
                fresh_world)) =
  Ret 2%Z
    (run [CallPut (Some 4); CallPut (Some 4)]
       (mkState (mkPool (Some (mkChan [] 2 false)) (Some dial) false)
                fresh_world)) /\
  run [CallPut (Some 4); CallPut (Some 4); CallClose]
    (mkState (mkPool (Some (mkChan [] 2 false)) (Some dial) false)
             fresh_world) =
  mkState (mkPool None None false) (mkWorld 0 [4; 4]).
Proof.
  apply (X12_Put_twice_is_closed_twice
           (mkState (mkPool (Some (mkChan [] 2 false)) (Some dial) false)
                    fresh_world)
           (mkChan [] 2 false) [] 4).
  - split; reflexivity.
  - reflexivity.
  - reflexivity.
  - cbn. lia.
Defined.

Lemma X13_Get_nil_head_reports_closed_witness :
  Get (mkState (mkPool (Some (mkChan [None] 1 false)) (Some dial) false)
               fresh_world) =
  Ret (None, Some (errors_New "pool is closed"))
      (mkState (mkPool (Some (mkChan [] 1 false)) (Some dial) false)
               fresh_world).
Proof.
  exact (X13_Get_nil_head_reports_closed
           (mkState (mkPool (Some (mkChan [None] 1 false)) (Some dial) false)
                    fresh_world)
           (mkChan [None] 1 false) [] eq_refl eq_refl eq_refl).
Defined.

Lemma X14_New_panics_beyond_limit_witness :
  New limit_amd64 1 MaxInt64 (Some dial) fresh_world =
    Panic "makechan: size out of range" fresh_world.
Proof.
  apply (X14_New_panics_beyond_limit limit_amd64 1 MaxInt64 (Some dial)
           fresh_world).
  - unfold MaxInt64. lia.
  - unfold limit_amd64, MaxInt64. lia.
Defined.
